(** * PubChemResolveTool: cache and alias resolution

    A shallow embedding of [tools/pubchem_search.py]: the on-disk cache, the
    two alias indexes built from it, the cache lookup, the PubChem fetch and
    the [forward] entry point, followed by the properties of the resolver.

    Conventions of the embedding.
    - A Python [str] is a [string]; every character stands for the code point
      of the same number, so the model covers the code points below 256.
    - [_cache] is a Python dict whose iteration order matters (the alias
      rebuild lets the last entry win, [json.dump] writes entries in order):
      it is an association list in insertion order.
    - [_alias_cs] and [_alias_ci] are only read with [.get] and filled from
      Python sets, whose iteration order is unspecified: they are finite maps.
    - The cache file and the calls of the fetch adapter are made explicit in
      the state: the text last written to the file and a trace of effects.
    - The three dictionaries are class attributes in the source; the model
      follows one tool instance, which is how the tool is used. *)

From Stdlib Require Import ZArith Ascii String List.
From stdpp Require Import base decidable option list gmap strings pretty fin_maps.

Local Open Scope string_scope.
Local Open Scope Z_scope.

(** ** Python strings *)

Module PyStr.

(** [str.isspace] on one character, for code points below 256. *)
Definition isspace (c : ascii) : bool :=
  let n := N_of_ascii c in
  ((9 <=? n) && (n <=? 13) || (28 <=? n) && (n <=? 32)
   || (n =? 133) || (n =? 160))%N.

Fixpoint lstrip (s : string) : string :=
  match s with
  | EmptyString => EmptyString
  | String c s' => if isspace c then lstrip s' else s
  end.

Fixpoint rstrip (s : string) : string :=
  match s with
  | EmptyString => EmptyString
  | String c s' =>
      match rstrip s' with
      | EmptyString => if isspace c then EmptyString else String c EmptyString
      | r => String c r
      end
  end.

(** [s.strip()] *)
Definition strip (s : string) : string := rstrip (lstrip s).

Definition lower_char (c : ascii) : ascii :=
  let n := N_of_ascii c in
  if ((65 <=? n) && (n <=? 90)
      || (192 <=? n) && (n <=? 222) && negb (n =? 215))%N
  then ascii_of_N (n + 32) else c.

(** [s.lower()] *)
Fixpoint lower (s : string) : string :=
  match s with
  | EmptyString => EmptyString
  | String c s' => String (lower_char c) (lower s')
  end.

Definition dquote : string := String "034"%char EmptyString.
Definition newline : string := String "010"%char EmptyString.

Definition hex_digit (n : N) : ascii :=
  if (n <? 10)%N then ascii_of_N (48 + n) else ascii_of_N (87 + n).

(** One character of a JSON string, as [json.dumps] writes it with
    [ensure_ascii=True]. *)
Definition json_escape_char (c : ascii) : string :=
  let n := N_of_ascii c in
  if (n =? 34)%N then "\" ++ dquote
  else if (n =? 92)%N then "\\"
  else if (n =? 10)%N then "\n"
  else if (n =? 13)%N then "\r"
  else if (n =? 9)%N then "\t"
  else if (n =? 8)%N then "\b"
  else if (n =? 12)%N then "\f"
  else if ((32 <=? n) && (n <=? 126))%N then String c EmptyString
  else "\u00" ++ String (hex_digit (n / 16)) (String (hex_digit (n mod 16)) EmptyString).

Fixpoint json_escape (s : string) : string :=
  match s with
  | EmptyString => EmptyString
  | String c s' => json_escape_char c ++ json_escape s'
  end.

Definition json_string (s : string) : string := dquote ++ json_escape s ++ dquote.

Fixpoint spaces (n : nat) : string :=
  match n with
  | O => EmptyString
  | S n' => String " "%char (spaces n')
  end.

(** The line break of [json.dumps(..., indent=2)] at nesting [level]. *)
Definition newline_indent (level : nat) : string := newline ++ spaces (2 * level).

End PyStr.

Import PyStr.

(** ** Values, records and the cache dictionary *)

(** The values a record field holds: [None], a [str], or an [int]. *)
Inductive pyval : Type :=
| PNone
| PStr (s : string)
| PInt (z : Z).

#[global] Instance pyval_eq_dec : EqDecision pyval.
Proof. solve_decision. Defined.

(** [str(v)] *)
Definition py_str (v : pyval) : string :=
  match v with
  | PNone => "None"
  | PStr s => s
  | PInt z => pretty z
  end.

(** [json.dumps(v)] for a field value. *)
Definition json_value (v : pyval) : string :=
  match v with
  | PNone => "null"
  | PStr s => json_string s
  | PInt z => pretty z
  end.

(** A cached record, [Dict[str, Optional[str]]] with the six keys in the
    order in which [forward] and [_fetch_from_pubchem] write them. The five
    text fields are [None] or a [str]; [cid] holds whatever value the record
    was given ([pubchempy] reports the CID as an [int]). *)
Record record : Type := mkRecord {
  iupac_name : option string;
  inchikey : option string;
  smiles : option string;
  common_name : option string;
  cid : pyval;
  formula : option string
}.

#[global] Instance record_eq_dec : EqDecision record.
Proof. solve_decision. Defined.

Inductive field : Type :=
| Fiupac_name | Finchikey | Fsmiles | Fcommon_name | Fcid | Fformula.

#[global] Instance field_eq_dec : EqDecision field.
Proof. solve_decision. Defined.

Definition all_fields : list field :=
  [Fiupac_name; Finchikey; Fsmiles; Fcommon_name; Fcid; Fformula].

Definition field_name (f : field) : string :=
  match f with
  | Fiupac_name => "iupac_name"
  | Finchikey => "inchikey"
  | Fsmiles => "smiles"
  | Fcommon_name => "common_name"
  | Fcid => "cid"
  | Fformula => "formula"
  end.

(** Membership of a string in the set of the six field names. *)
Definition field_of_name (s : string) : option field :=
  head (filter (fun f => field_name f = s) all_fields).

Definition of_text (o : option string) : pyval :=
  match o with
  | None => PNone
  | Some s => PStr s
  end.

(** [rec.get(f)] for one of the six keys. *)
Definition rec_get (r : record) (f : field) : pyval :=
  match f with
  | Fiupac_name => of_text (iupac_name r)
  | Finchikey => of_text (inchikey r)
  | Fsmiles => of_text (smiles r)
  | Fcommon_name => of_text (common_name r)
  | Fcid => cid r
  | Fformula => of_text (formula r)
  end.

(** [json.dumps(rec, indent=2)] when the dict is nested [level] deep. *)
Definition json_record (level : nat) (r : record) : string :=
  let sep := "," ++ newline_indent (S level) in
  let item f := json_string (field_name f) ++ ": " ++ json_value (rec_get r f) in
  "{" ++ newline_indent (S level)
      ++ item Fiupac_name ++ sep ++ item Finchikey ++ sep ++ item Fsmiles ++ sep
      ++ item Fcommon_name ++ sep ++ item Fcid ++ sep ++ item Fformula
      ++ newline_indent level ++ "}".

Definition json_dumps (r : record) : string := json_record 0 r.

(** The cache: a dict from written key to record, in insertion order. *)
Definition store : Type := list (string * record).

Fixpoint dict_get (d : store) (k : string) : option record :=
  match d with
  | [] => None
  | (k', v) :: d' => if decide (k' = k) then Some v else dict_get d' k
  end.

(** [d[k] = v]: replaces the value in place, or appends a new entry. *)
Fixpoint dict_set (d : store) (k : string) (v : record) : store :=
  match d with
  | [] => [(k, v)]
  | (k', v') :: d' =>
      if decide (k' = k) then (k, v) :: d' else (k', v') :: dict_set d' k v
  end.

Definition keys (d : store) : list string := d.*1.

Fixpoint json_items (d : store) : string :=
  match d with
  | [] => EmptyString
  | (k, v) :: d' =>
      json_string k ++ ": " ++ json_record 1 v
        ++ match d' with
           | [] => EmptyString
           | _ => "," ++ newline_indent 1 ++ json_items d'
           end
  end.

(** [json.dump(self._cache, f, indent=2)]: the text written to the file. *)
Definition json_dump_store (d : store) : string :=
  match d with
  | [] => "{}"
  | _ => "{" ++ newline_indent 1 ++ json_items d ++ newline_indent 0 ++ "}"
  end.

(** ** The resolver state *)

(** Effects outside the process: a call of the fetch adapter
    ([_fetch_from_pubchem]) and an overwrite of the cache file. *)
Inductive event : Type :=
| EvFetch (token : string)
| EvWrite (content : string).

#[global] Instance event_eq_dec : EqDecision event.
Proof. solve_decision. Defined.

(** One tool instance: the three dictionaries, the content of the cache file
    ([None] while the file does not exist) and the effects so far. *)
Record state : Type := mkState {
  _cache : store;
  _alias_cs : gmap string string;
  _alias_ci : gmap string string;
  cache_file : option string;
  trace : list event
}.

Inductive exn : Type :=
| ValueError (msg : string).

Inductive outcome : Type :=
| Return (s : string)
| Raise (e : exn).

(** ** Cache helpers *)

(** [s.strip().lower()] *)
Definition _norm_name (s : string) : string := lower (strip s).

(** [x or ""] for an [Optional[str]]. *)
Definition or_empty (o : option string) : string :=
  match o with
  | Some s => s
  | None => ""
  end.

(** [str(cid).strip() if cid not in (None, "") else ""] *)
Definition cid_str (c : pyval) : string :=
  match c with
  | PNone => ""
  | PStr "" => ""
  | _ => strip (py_str c)
  end.

(** [filter(None, {...})]: the non-empty strings of the set. *)
Definition truthy (l : list string) : list string :=
  filter (fun s => s ≠ "") l.

(** The aliases one cache entry puts into the case-insensitive table, before
    normalisation. *)
Definition name_aliases (written : string) (v : record) : list string :=
  truthy [written; strip (or_empty (iupac_name v)); strip (or_empty (common_name v))].

(** The aliases one cache entry puts into the case-sensitive table. *)
Definition structure_aliases (v : record) : list string :=
  truthy [strip (or_empty (inchikey v)); strip (or_empty (smiles v));
          strip (or_empty (formula v)); cid_str (cid v)].

(** [for alias in aliases: table[norm(alias)] = written] *)
Fixpoint add_aliases (norm : string -> string) (written : string)
    (aliases : list string) (table : gmap string string) : gmap string string :=
  match aliases with
  | [] => table
  | alias :: rest => add_aliases norm written rest (<[norm alias := written]> table)
  end.

(** The loop of [_rebuild_alias_indexes] over the items of the cache. *)
Fixpoint rebuild_loop (items : store) (cs ci : gmap string string)
    : gmap string string * gmap string string :=
  match items with
  | [] => (cs, ci)
  | (written, v) :: rest =>
      let ci' := add_aliases _norm_name written (name_aliases written v) ci in
      let cs' := add_aliases id written (structure_aliases v) cs in
      rebuild_loop rest cs' ci'
  end.

Definition _rebuild_alias_indexes (st : state) : state :=
  let tables := rebuild_loop (_cache st) ∅ ∅ in
  {| _cache := _cache st;
     _alias_cs := tables.1;
     _alias_ci := tables.2;
     cache_file := cache_file st;
     trace := trace st |}.

Definition _persist_cache (st : state) : state :=
  let text := json_dump_store (_cache st) in
  {| _cache := _cache st;
     _alias_cs := _alias_cs st;
     _alias_ci := _alias_ci st;
     cache_file := Some text;
     trace := trace st ++ [EvWrite text] |}.

Definition cache_setitem (st : state) (written : string) (rec : record) : state :=
  {| _cache := dict_set (_cache st) written rec;
     _alias_cs := _alias_cs st;
     _alias_ci := _alias_ci st;
     cache_file := cache_file st;
     trace := trace st |}.

Definition _add_to_cache (st : state) (written : string) (rec : record) : state :=
  _persist_cache (_rebuild_alias_indexes (cache_setitem st written rec)).

(** [if written: return self._cache.get(written)], else the continuation. *)
Definition via_alias (st : state) (hit : option string)
    (otherwise : option record) : option record :=
  match hit with
  | Some written => if decide (written = "") then otherwise else dict_get (_cache st) written
  | None => otherwise
  end.

Definition _lookup_cache (st : state) (query : string) : option record :=
  if decide (strip query = "") then None
  else
    let q := strip query in
    via_alias st (_alias_cs st !! q)
      (via_alias st (_alias_ci st !! _norm_name q)
         (dict_get (_cache st) q)).

(** ** PubChem fetch *)

(** One attribute of a [pubchempy.Compound] under [getattr(c, name, None)]:
    the read raises (the attributes are properties, [synonyms] asks the
    service), or it yields a value, [None] when the attribute is missing. *)
Inductive attr (A : Type) : Type :=
| AttrRaises
| AttrValue (v : option A).

Arguments AttrRaises {A}.
Arguments AttrValue {A} v.

(** A compound as the service returns it. *)
Record PcpCompound : Type := mkPcpCompound {
  p_iupac_name : attr string;
  p_inchikey : attr string;
  p_isomeric_smiles : attr string;
  p_smiles : attr string;
  p_synonyms : attr (list string);
  p_cid : attr Z;
  p_molecular_formula : attr string
}.

(** What [_fetch_from_pubchem] has read of a compound when no read raised:
    each attribute as [getattr(c, name, None)] yielded it. *)
Record Compound : Type := mkCompound {
  c_iupac_name : option string;
  c_inchikey : option string;
  c_isomeric_smiles : option string;
  c_smiles : option string;
  c_synonyms : option (list string);
  c_cid : option Z;
  c_molecular_formula : option string
}.

Inductive namespace : Type :=
| NsInchikey | NsSmiles | NsFormula | NsName | NsCid.

(** The outcome of [pcp.get_compounds(token, ns)]: an exception or a list. *)
Inductive pcp_reply : Type :=
| PcpRaises
| PcpCompounds (comps : list PcpCompound).

(** [getattr(c, name, None)] in the error monad: [None] is the exception. *)
Definition getattr {A : Type} (a : attr A) : option (option A) :=
  match a with
  | AttrRaises => None
  | AttrValue v => Some v
  end.

(** The truth value of an [Optional[str]]. *)
Definition is_truthy (o : option string) : bool :=
  match o with
  | Some s => bool_decide (s ≠ "")
  | None => false
  end.

(** The attribute reads of the dict literal of [_fetch_from_pubchem], in its
    order; [smiles] is read only when [isomeric_smiles] is empty or [None],
    as [or] evaluates it. [None] when a read raises. *)
Definition read_compound (p : PcpCompound) : option Compound :=
  iupac ← getattr (p_iupac_name p);
  inchikey ← getattr (p_inchikey p);
  isomeric ← getattr (p_isomeric_smiles p);
  smi ← (if is_truthy isomeric then Some None else getattr (p_smiles p));
  synonyms ← getattr (p_synonyms p);
  cid ← getattr (p_cid p);
  formula ← getattr (p_molecular_formula p);
  Some (mkCompound iupac inchikey isomeric smi synonyms cid formula).

(** [a or b] on strings, where [a] may also be [None]. *)
Definition text_or (a : option string) (b : string) : string :=
  match a with
  | Some s => if decide (s = "") then b else s
  | None => b
  end.

Definition first_synonym (syn : option (list string)) : option string :=
  match syn with
  | Some (s :: _) => Some s
  | _ => None
  end.

(** The dict literal that [_fetch_from_pubchem] builds from [comps[0]], once
    its attributes are read. *)
Definition record_of_compound (c : Compound) : record :=
  {| iupac_name := Some (text_or (c_iupac_name c) "");
     inchikey := Some (text_or (c_inchikey c) "");
     smiles := Some (text_or (c_isomeric_smiles c) (text_or (c_smiles c) ""));
     common_name := Some (text_or (first_synonym (c_synonyms c)) "");
     cid := match c_cid c with
            | Some z => if decide (z = 0) then PStr "" else PInt z
            | None => PStr ""
            end;
     formula := Some (text_or (c_molecular_formula c) "") |}.

Definition namespaces : list namespace :=
  [NsInchikey; NsSmiles; NsFormula; NsName; NsCid].

(** The record all six fields of which are [None]. *)
Definition negative_record : record :=
  {| iupac_name := None; inchikey := None; smiles := None;
     common_name := None; cid := PNone; formula := None |}.

Definition output_format_error : string :=
  "output_format must be one of {'iupac_name','inchikey','smiles','common_name','cid','formula','json'}".

(** Step 3 of [forward]: render [rec] in the requested format. *)
Definition render (rec : record) (query output_format : string) : outcome :=
  if decide (output_format = "json") then Return (json_dumps rec)
  else
    match field_of_name output_format with
    | None => Raise (ValueError output_format_error)
    | Some f =>
        match rec_get rec f with
        | PNone | PStr "" =>
            Return ("No value for '" ++ output_format ++ "' found for: " ++ query)
        | value => Return (py_str value)
        end
    end.

Section Tool.

(** [pcp.get_compounds], the remote service. *)
Variable get_compounds : string -> namespace -> pcp_reply.

(** [json.load] on the text of the cache file; [None] is a
    [JSONDecodeError]. *)
Variable json_load : string -> option store.

(** The loop over the namespaces; the [try] covers the call of the service
    and the reading of the first compound, and any exception moves on to the
    next namespace. *)
Fixpoint try_namespaces (token : string) (nss : list namespace) : option record :=
  match nss with
  | [] => None
  | ns :: rest =>
      match get_compounds token ns with
      | PcpCompounds (p :: _) =>
          match read_compound p with
          | Some c => Some (record_of_compound c)
          | None => try_namespaces token rest
          end
      | _ => try_namespaces token rest
      end
  end.

Definition _fetch_from_pubchem (st : state) (token : string)
    : option record * state :=
  (try_namespaces token namespaces,
   {| _cache := _cache st;
      _alias_cs := _alias_cs st;
      _alias_ci := _alias_ci st;
      cache_file := cache_file st;
      trace := trace st ++ [EvFetch token] |}).

Definition _load_cache (st : state) : state :=
  match cache_file st with
  | None =>
      _rebuild_alias_indexes
        {| _cache := [];
           _alias_cs := _alias_cs st;
           _alias_ci := _alias_ci st;
           cache_file := Some "{}";
           trace := trace st ++ [EvWrite "{}"] |}
  | Some text =>
      _rebuild_alias_indexes
        {| _cache := match json_load text with Some d => d | None => [] end;
           _alias_cs := _alias_cs st;
           _alias_ci := _alias_ci st;
           cache_file := cache_file st;
           trace := trace st |}
  end.

(** [PubChemResolveTool(cache_filename)] on a file system where the cache
    file holds [file]. *)
Definition __init__ (file : option string) : state :=
  _load_cache
    {| _cache := []; _alias_cs := ∅; _alias_ci := ∅;
       cache_file := file; trace := [] |}.

(** [forward(query, output_format)]; [output_format = None] is the call
    that leaves the argument out or passes [None]. *)
Definition forward (st : state) (query : string) (output_format : option string)
    : outcome * state :=
  if decide (strip query = "") then
    (Raise (ValueError "Query must be a non-empty string."), st)
  else
    let output_format := text_or output_format "json" in
    match _lookup_cache st query with
    | Some rec => (render rec query output_format, st)
    | None =>
        let (fetched, st1) := _fetch_from_pubchem st query in
        match fetched with
        | None =>
            (Return ("No PubChem result found for: " ++ query),
             _add_to_cache st1 query negative_record)
        | Some rec =>
            (render rec query output_format, _add_to_cache st1 query rec)
        end
    end.

End Tool.

(** ** Specification vocabulary *)

(** The table keys one cache entry claims: its structure aliases as they
    are, its name aliases normalised. *)
Definition cs_claims (written : string) (v : record) : list string :=
  structure_aliases v.

Definition ci_claims (written : string) (v : record) : list string :=
  _norm_name <$> name_aliases written v.

(** The written key of the last entry of [items] that claims [k]. *)
Fixpoint last_claim (claims : string -> record -> list string)
    (items : store) (k : string) : option string :=
  match items with
  | [] => None
  | (written, v) :: rest =>
      match last_claim claims rest k with
      | Some w => Some w
      | None => if decide (k ∈ claims written v) then Some written else None
      end
  end.

(** The states a tool instance runs in: the written keys are distinct and
    not blank, and the alias tables are the rebuild of the cache. *)
Definition wf (st : state) : Prop :=
  NoDup (keys (_cache st))
  ∧ Forall (fun k => strip k ≠ "") (keys (_cache st))
  ∧ (_alias_cs st, _alias_ci st) = rebuild_loop (_cache st) ∅ ∅.

#[global] Instance wf_dec (st : state) : Decision (wf st).
Proof. unfold wf. apply _. Defined.

(** The effective output format is neither ["json"] nor a field name. *)
Definition invalid_format (output_format : option string) : Prop :=
  text_or output_format "json" ≠ "json"
  ∧ field_of_name (text_or output_format "json") = None.

(** The number of calls of the fetch adapter with [token] in a trace. *)
Definition fetch_count (token : string) (tr : list event) : nat :=
  length (filter (fun e => e = EvFetch token) tr).

(** [lookup] as the specification words it: the case-sensitive table with
    the trimmed query, then the case-insensitive table with the trimmed and
    lowered query, then the store with the trimmed query as written key. *)
Definition lookup_spec (st : state) (query : string) : option record :=
  match _alias_cs st !! strip query with
  | Some written => dict_get (_cache st) written
  | None =>
      match _alias_ci st !! lower (strip query) with
      | Some written => dict_get (_cache st) written
      | None => dict_get (_cache st) (strip query)
      end
  end.

(** [alias] is the trimmed content of a text field that holds a string with
    something other than white space in it. *)
Definition text_source (fld : option string) (alias : string) : Prop :=
  ∃ s, fld = Some s ∧ strip s ≠ "" ∧ alias = strip s.

(** [k] is the trimmed content of a structure field of [v]: of its inchikey,
    smiles or formula, of its cid when that is a string, or the decimal
    digits of its cid when that is a number. *)
Definition from_structure_field (v : record) (k : string) : Prop :=
  text_source (inchikey v) k
  ∨ text_source (smiles v) k
  ∨ text_source (formula v) k
  ∨ (∃ s, cid v = PStr s ∧ strip s ≠ "" ∧ k = strip s)
  ∨ (∃ z, cid v = PInt z ∧ k = pretty z).

(** [k] is a name of the entry, trimmed and lowered: its written key (not
    empty), its iupac name or its common name. *)
Definition from_name_field (written : string) (v : record) (k : string) : Prop :=
  (written ≠ "" ∧ k = lower (strip written))
  ∨ (∃ a, text_source (iupac_name v) a ∧ k = lower a)
  ∨ (∃ a, text_source (common_name v) a ∧ k = lower a).

(** [w] is the written key of the last entry of [d], in insertion order,
    that satisfies [P]. *)
Definition last_entry (P : string -> record -> Prop) (d : store) (w : string) : Prop :=
  ∃ before v after,
    d = (before ++ (w, v) :: after)%list
    ∧ P w v
    ∧ ∀ w' v', (w', v') ∈ after → ¬ P w' v'.

(** The stored value of a text field whose upstream attribute is [upstream]:
    the attribute when it is a non-empty string, the empty string when it is
    missing, [None] or empty. *)
Definition stored_text (upstream : option string) (v : pyval) : Prop :=
  (∃ s, upstream = Some s ∧ s ≠ "" ∧ v = PStr s)
  ∨ ((upstream = None ∨ upstream = Some "") ∧ v = PStr "").

(** No alias of either table leads to the empty written key. *)
Definition targets_nonempty (st : state) : Prop :=
  ∀ k w, _alias_cs st !! k = Some w ∨ _alias_ci st !! k = Some w → w ≠ "".

(** A field value is a string or the absence marker. *)
Definition str_or_null (v : pyval) : Prop :=
  v = PNone ∨ ∃ s, v = PStr s.

(** The record that [forward] upserts for a query that misses the cache. *)
Definition upserted (get_compounds : string -> namespace -> pcp_reply)
    (query : string) : record :=
  match try_namespaces get_compounds query namespaces with
  | Some rec => rec
  | None => negative_record
  end.

(** ** Sample services and states *)

(** The state of a new tool instance whose cache file did not exist. *)
Definition fresh : state :=
  {| _cache := []; _alias_cs := ∅; _alias_ci := ∅;
     cache_file := Some "{}"; trace := [EvWrite "{}"] |}.

(** A service that knows no compound at all. *)
Definition no_results (token : string) (ns : namespace) : pcp_reply :=
  PcpCompounds [].

(** A compound of the service all attributes of which can be read. *)
Definition readable (c : Compound) : PcpCompound :=
  {| p_iupac_name := AttrValue (c_iupac_name c);
     p_inchikey := AttrValue (c_inchikey c);
     p_isomeric_smiles := AttrValue (c_isomeric_smiles c);
     p_smiles := AttrValue (c_smiles c);
     p_synonyms := AttrValue (c_synonyms c);
     p_cid := AttrValue (c_cid c);
     p_molecular_formula := AttrValue (c_molecular_formula c) |}.

Definition water : Compound :=
  {| c_iupac_name := Some "oxidane";
     c_inchikey := Some "XLYOFNOQVPJJNP-UHFFFAOYSA-N";
     c_isomeric_smiles := None;
     c_smiles := Some "O";
     c_synonyms := Some ["water"; "dihydrogen oxide"];
     c_cid := Some 962;
     c_molecular_formula := Some "H2O" |}.

(** A service that knows water by its name, and fails on CID lookups. *)
Definition water_service (token : string) (ns : namespace) : pcp_reply :=
  match ns with
  | NsName => if decide (token = "water") then PcpCompounds [readable water] else PcpCompounds []
  | NsCid => PcpRaises
  | _ => PcpCompounds []
  end.

(** The state after [forward("water", "smiles")] on a new instance. *)
Definition with_water : state :=
  (forward water_service fresh "water" (Some "smiles")).2.

Definition aspirin : Compound :=
  {| c_iupac_name := Some "2-acetyloxybenzoic acid";
     c_inchikey := Some "ABC-123";
     c_isomeric_smiles := Some "CC(=O)OC1=CC=CC=C1C(=O)O";
     c_smiles := None;
     c_synonyms := Some ["Aspirin"];
     c_cid := Some 2244;
     c_molecular_formula := Some "C9H8O4" |}.

(** A service that knows aspirin by its name. *)
Definition aspirin_service (token : string) (ns : namespace) : pcp_reply :=
  match ns with
  | NsName => if decide (token = "Aspirin") then PcpCompounds [readable aspirin] else PcpCompounds []
  | _ => PcpCompounds []
  end.

(** The state after [forward("Aspirin")] on a new instance. *)
Definition with_aspirin : state :=
  (forward aspirin_service fresh "Aspirin" None).2.

Definition methanol : Compound :=
  {| c_iupac_name := Some "methanol";
     c_inchikey := Some "ABC-123";
     c_isomeric_smiles := None;
     c_smiles := Some "CO";
     c_synonyms := Some ["methanol"];
     c_cid := Some 887;
     c_molecular_formula := Some "CH4O" |}.

Definition carbon_monoxide : Compound :=
  {| c_iupac_name := Some "carbon monoxide";
     c_inchikey := Some "XYZ-789";
     c_isomeric_smiles := None;
     c_smiles := Some "[C-]#[O+]";
     c_synonyms := Some ["carbon monoxide"];
     c_cid := Some 281;
     c_molecular_formula := Some "CO" |}.

(** A service that reads [CO] as the SMILES of methanol and knows carbon
    monoxide, whose formula is [CO], by its name. *)
Definition co_service (token : string) (ns : namespace) : pcp_reply :=
  match ns with
  | NsSmiles => if decide (token = "CO") then PcpCompounds [readable methanol] else PcpCompounds []
  | NsName =>
      if decide (token = "carbon monoxide") then PcpCompounds [readable carbon_monoxide]
      else PcpCompounds []
  | _ => PcpCompounds []
  end.

(** The state after [forward("CO")] and then [forward("carbon monoxide")] on
    a new instance. *)
Definition two_records : state :=
  (forward co_service (forward co_service fresh "CO" None).2 "carbon monoxide" None).2.

(** The instance of [with_water] after another instance of the tool, on an
    empty cache file, has rebuilt the alias tables that the class shares:
    the cache still holds water, the tables are empty. *)
Definition stale_water : state :=
  {| _cache := _cache with_water;
     _alias_cs := ∅;
     _alias_ci := ∅;
     cache_file := cache_file with_water;
     trace := trace with_water |}.

(** A service that knows aspirin by the inchikey ["ABC-123"]. *)
Definition by_inchikey (token : string) (ns : namespace) : pcp_reply :=
  match ns with
  | NsInchikey =>
      if decide (token = "ABC-123") then PcpCompounds [readable aspirin]
      else PcpCompounds []
  | _ => PcpCompounds []
  end.

(** The state after [forward("ABC-123")] on a new instance. *)
Definition keyed_by_inchikey : state :=
  (forward by_inchikey fresh "ABC-123" None).2.

Definition aqua : Compound :=
  {| c_iupac_name := Some "aqua regia";
     c_inchikey := Some "AQUA-KEY";
     c_isomeric_smiles := None;
     c_smiles := Some "Cl.O=N(=O)O";
     c_synonyms := Some ["Water"];
     c_cid := Some 90477010;
     c_molecular_formula := Some "Cl3H4NO3" |}.

(** A service that knows water, and under the name [aqua] a compound whose
    first synonym is [Water]. *)
Definition aqua_service (token : string) (ns : namespace) : pcp_reply :=
  match ns with
  | NsName =>
      if decide (token = "water") then PcpCompounds [readable water]
      else if decide (token = "aqua") then PcpCompounds [readable aqua]
      else PcpCompounds []
  | _ => PcpCompounds []
  end.

(** The state after [forward("water")] and then [forward("aqua")] on a new
    instance. *)
Definition water_then_aqua : state :=
  (forward aqua_service (forward aqua_service fresh "water" None).2 "aqua" None).2.

(** Water as the service returns it when the read of [synonyms] raises. *)
Definition water_without_synonyms : PcpCompound :=
  {| p_iupac_name := AttrValue (Some "oxidane");
     p_inchikey := AttrValue (Some "XLYOFNOQVPJJNP-UHFFFAOYSA-N");
     p_isomeric_smiles := AttrValue None;
     p_smiles := AttrValue (Some "O");
     p_synonyms := AttrRaises;
     p_cid := AttrValue (Some 962);
     p_molecular_formula := AttrValue (Some "H2O") |}.

(** A service that finds water by its formula, but cannot deliver the
    synonyms there, and finds it by its name with all attributes. *)
Definition flaky_service (token : string) (ns : namespace) : pcp_reply :=
  match ns with
  | NsFormula => PcpCompounds [water_without_synonyms]
  | NsName => PcpCompounds [readable water]
  | NsCid => PcpRaises
  | _ => PcpCompounds []
  end.

(** A [json.load] that decodes the dump of the one entry, and nothing else. *)
Definition load_only_entry (k : string) (v : record) (text : string) : option store :=
  if decide (text = json_dump_store [(k, v)]) then Some [(k, v)] else None.

(** The instance constructed from a cache file that holds one entry, a
    negative record under the empty written key. *)
Definition loaded_empty_key : state :=
  __init__ (load_only_entry "" negative_record)
    (Some (json_dump_store [("", negative_record)])).

(** ** Runs of calls and the cache file *)

(** A sequence of [forward] calls on one instance, each a query and an
    output format; the outputs are dropped, the state is threaded. *)
Definition run_calls (get_compounds : string -> namespace -> pcp_reply)
    (st : state) (calls : list (string * option string)) : state :=
  fold_left (fun s call => (forward get_compounds s call.1 call.2).2) calls st.

(** The tokens the fetch adapter was called with, in call order. *)
Definition fetched_tokens (tr : list event) : list string :=
  omap (fun e => match e with EvFetch token => Some token | EvWrite _ => None end) tr.

(** The cache file holds the dump of the cache in memory. *)
Definition synced (st : state) : Prop :=
  cache_file st = Some (json_dump_store (_cache st)).

(** No character of the string is white space. *)
Fixpoint no_space (s : string) : bool :=
  match s with
  | EmptyString => true
  | String c s' => negb (isspace c) && no_space s'
  end.

(** A [json.load] that rejects every text. *)
Definition no_json (text : string) : option store := None.

(** A [json.load] that decodes the dump of [d], and nothing else. *)
Definition load_only (d : store) (text : string) : option store :=
  if decide (text = json_dump_store d) then Some d else None.

(** ** Strings: trimming and lowering *)

Lemma lstrip_head (s : string) :
  lstrip s = "" ∨ ∃ c t, lstrip s = String c t ∧ isspace c = false.
Proof.
  induction s as [|c s IH]; simpl; [by left|].
  destruct (isspace c) eqn:Hc; [exact IH|].
  right. by exists c, s.
Qed.

Lemma rstrip_idemp (s : string) : rstrip (rstrip s) = rstrip s.
Proof.
  induction s as [|c s IH]; simpl; [done|].
  destruct (rstrip s) as [|c' r] eqn:Hr.
  - destruct (isspace c) eqn:Hc; simpl; [done|]. by rewrite Hc.
  - simpl in *. by rewrite IH.
Qed.

Lemma rstrip_head (c : ascii) (t : string) :
  isspace c = false → ∃ r, rstrip (String c t) = String c r.
Proof.
  intros Hc. simpl. destruct (rstrip t) as [|c' r]; [|by eexists].
  rewrite Hc. by eexists.
Qed.

Lemma strip_idemp (s : string) : strip (strip s) = strip s.
Proof.
  unfold strip.
  destruct (lstrip_head s) as [->|(c & t & -> & Hc)]; [done|].
  destruct (rstrip_head c t Hc) as [r Hr].
  rewrite Hr. simpl lstrip. rewrite Hc, <- Hr. apply rstrip_idemp.
Qed.

Lemma strip_nonempty (s : string) : strip s ≠ "" → s ≠ "".
Proof. by intros H ->. Qed.

Lemma norm_name_strip (s : string) : _norm_name (strip s) = _norm_name s.
Proof. unfold _norm_name. by rewrite strip_idemp. Qed.

(** ** The cache dictionary *)

Lemma dict_get_Some (d : store) (k : string) (v : record) :
  dict_get d k = Some v → (k, v) ∈ d.
Proof.
  induction d as [|[k' v'] d IH]; csimpl; [done|].
  case_decide as Hk.
  - intros [= <-]. subst. apply list_elem_of_here.
  - intros H. apply list_elem_of_further. by apply IH.
Qed.

Lemma dict_get_None (d : store) (k : string) :
  dict_get d k = None ↔ k ∉ keys d.
Proof.
  unfold keys. induction d as [|[k' v'] d IH]; csimpl.
  - split; [intros _; apply not_elem_of_nil | done].
  - case_decide as Hk.
    + subst. split; [done|]. intros H. destruct H. apply list_elem_of_here.
    + rewrite IH, not_elem_of_cons. split; [intros H; split; [congruence | exact H] | by intros [_ H]].
Qed.

Lemma dict_get_is_Some (d : store) (k : string) :
  k ∈ keys d → is_Some (dict_get d k).
Proof.
  intros Hk. destruct (dict_get d k) eqn:E; [by eexists|].
  by apply dict_get_None in E.
Qed.

Lemma dict_get_NoDup (d : store) (k : string) (v : record) :
  NoDup (keys d) → (k, v) ∈ d → dict_get d k = Some v.
Proof.
  unfold keys. induction d as [|[k' v'] d IH]; csimpl.
  - intros _ H. by apply elem_of_nil in H.
  - intros Hnd H. apply NoDup_cons in Hnd as [Hk' Hnd].
    apply elem_of_cons in H as [[= -> ->]|H].
    + by rewrite decide_True.
    + rewrite decide_False; [by apply IH|].
      intros ->. apply Hk'. apply list_elem_of_fmap. by exists (k, v).
Qed.

Lemma dict_set_fresh (d : store) (k : string) (v : record) :
  k ∉ keys d → dict_set d k v = (d ++ [(k, v)])%list.
Proof.
  unfold keys. induction d as [|[k' v'] d IH]; csimpl; [done|].
  rewrite not_elem_of_cons. intros [Hne Hk].
  rewrite decide_False by done. by rewrite IH.
Qed.

Lemma dict_set_keys (d : store) (k : string) (v : record) :
  keys (dict_set d k v) = if decide (k ∈ keys d) then keys d else (keys d ++ [k])%list.
Proof.
  unfold keys. induction d as [|[k' v'] d IH]; csimpl.
  - destruct (decide (k ∈ [])) as [H|_]; [|done]. by apply elem_of_nil in H.
  - destruct (decide (k' = k)) as [->|Hne]; csimpl.
    + destruct (decide (k ∈ k :: d.*1)) as [_|H]; [done|].
      destruct H. apply list_elem_of_here.
    + rewrite IH. destruct (decide (k ∈ d.*1)) as [Hin|Hnin];
        destruct (decide (k ∈ k' :: d.*1)) as [Hin'|Hnin']; try done.
      * destruct Hnin'. by apply list_elem_of_further.
      * apply elem_of_cons in Hin' as [->|Hin']; done.
Qed.

Lemma dict_get_set (d : store) (k : string) (v : record) :
  dict_get (dict_set d k v) k = Some v.
Proof.
  induction d as [|[k' v'] d IH]; csimpl.
  - by rewrite decide_True.
  - destruct (decide (k' = k)) as [->|Hne]; csimpl.
    + by rewrite decide_True.
    + by rewrite decide_False.
Qed.

Lemma dict_get_set_ne (d : store) (k k' : string) (v : record) :
  k ≠ k' → dict_get (dict_set d k v) k' = dict_get d k'.
Proof.
  intros Hne. induction d as [|[k0 v0] d IH]; csimpl.
  - by rewrite decide_False.
  - destruct (decide (k0 = k)) as [->|Hne0]; csimpl.
    + by rewrite !decide_False.
    + by rewrite IH.
Qed.

Lemma entry_key (d : store) (w : string) (v : record) : (w, v) ∈ d → w ∈ keys d.
Proof. intros Hin. unfold keys. apply list_elem_of_fmap. by exists (w, v). Qed.

Lemma key_entry (d : store) (w : string) : w ∈ keys d → ∃ v, (w, v) ∈ d.
Proof.
  unfold keys. intros ([w' v] & -> & Hin)%list_elem_of_fmap. by exists v.
Qed.

(** ** The alias tables *)

Section Tables.

Implicit Types (table cs ci : gmap string string) (items d : store).

Lemma add_aliases_lookup (norm : string → string) (written : string)
    (aliases : list string) table (k : string) :
  add_aliases norm written aliases table !! k
  = if decide (k ∈ norm <$> aliases) then Some written else table !! k.
Proof.
  revert table. induction aliases as [|a rest IH]; intros table; csimpl.
  - destruct (decide (k ∈ [])) as [H|_]; [|done]. by apply elem_of_nil in H.
  - rewrite IH.
    destruct (decide (k ∈ norm <$> rest)) as [Hin|Hnin].
    + rewrite decide_True; [done|]. by apply list_elem_of_further.
    + destruct (decide (norm a = k)) as [<-|Hne].
      * rewrite lookup_insert_eq, decide_True; [done|]. apply list_elem_of_here.
      * rewrite lookup_insert_ne by done.
        rewrite decide_False; [done|]. rewrite not_elem_of_cons. by split.
Qed.

Lemma fmap_id_list (l : list string) : id <$> l = l.
Proof. apply list_fmap_id. Qed.

(** A table after the loop: the last claimant of a key wins, and a key
    nobody claims keeps what the table held before. *)
Lemma rebuild_loop_cs items cs ci (k : string) :
  (rebuild_loop items cs ci).1 !! k
  = match last_claim cs_claims items k with
    | Some w => Some w
    | None => cs !! k
    end.
Proof.
  revert cs ci. induction items as [|[written v] rest IH]; intros cs ci; [done|].
  cbn [rebuild_loop last_claim]. rewrite IH.
  destruct (last_claim cs_claims rest k); [done|].
  rewrite add_aliases_lookup, fmap_id_list. unfold cs_claims.
  by destruct (decide (k ∈ structure_aliases v)).
Qed.

Lemma rebuild_loop_ci items cs ci (k : string) :
  (rebuild_loop items cs ci).2 !! k
  = match last_claim ci_claims items k with
    | Some w => Some w
    | None => ci !! k
    end.
Proof.
  revert cs ci. induction items as [|[written v] rest IH]; intros cs ci; [done|].
  cbn [rebuild_loop last_claim]. rewrite IH.
  destruct (last_claim ci_claims rest k); [done|].
  rewrite add_aliases_lookup. unfold ci_claims.
  by destruct (decide (k ∈ _norm_name <$> name_aliases written v)).
Qed.

Variable claims : string → record → list string.

Lemma last_claim_Some items (k w : string) :
  last_claim claims items k = Some w →
  ∃ v, (w, v) ∈ items ∧ k ∈ claims w v.
Proof.
  induction items as [|[written v] rest IH]; [done|]. cbn [last_claim].
  destruct (last_claim claims rest k) as [w'|].
  - intros [= ->]. destruct IH as (v' & Hin & Hk); [done|].
    exists v'. split; [by apply list_elem_of_further | done].
  - case_decide as Hk; [|done]. intros [= ->].
    exists v. split; [apply list_elem_of_here | done].
Qed.

Lemma last_claim_None items (k : string) :
  last_claim claims items k = None ↔
  ∀ w v, (w, v) ∈ items → k ∉ claims w v.
Proof.
  induction items as [|[written v] rest IH]; cbn [last_claim].
  - split; [|done]. intros _ w v H. by apply elem_of_nil in H.
  - destruct (last_claim claims rest k) as [w'|] eqn:E.
    + split; [done|]. intros H.
      apply last_claim_Some in E as (v' & Hin & Hk).
      destruct (H w' v'); [by apply list_elem_of_further | done].
    + case_decide as Hk.
      * split; [done|]. intros H. destruct (H written v); [apply list_elem_of_here | done].
      * split; [|done]. intros _ w v0 [[= -> ->]|Hin]%elem_of_cons; [done|].
        destruct IH as [IH _]. by apply (IH eq_refl w v0).
Qed.

Lemma last_claim_is_Some items (k w : string) (v : record) :
  (w, v) ∈ items → k ∈ claims w v → is_Some (last_claim claims items k).
Proof.
  intros Hin Hk. destruct (last_claim claims items k) eqn:E; [by eexists|].
  destruct (proj1 (last_claim_None items k) E w v); done.
Qed.

Lemma last_claim_app items items' (k : string) :
  last_claim claims (items ++ items')%list k
  = match last_claim claims items' k with
    | Some w => Some w
    | None => last_claim claims items k
    end.
Proof.
  induction items as [|[written v] rest IH]; cbn [last_claim app].
  - by destruct (last_claim claims items' k).
  - rewrite IH. by destruct (last_claim claims items' k).
Qed.

(** When a single entry claims the key, its written key is the one found. *)
Lemma last_claim_unique items (k w : string) (v : record) :
  (w, v) ∈ items → k ∈ claims w v →
  (∀ w' v', (w', v') ∈ items → k ∈ claims w' v' → w' = w) →
  last_claim claims items k = Some w.
Proof.
  intros Hin Hk Huniq.
  destruct (last_claim_is_Some items k w v Hin Hk) as [w' E].
  rewrite E. f_equal.
  apply last_claim_Some in E as (v' & Hin' & Hk'). by eapply Huniq.
Qed.

End Tables.

(** ** What the entries claim *)

Lemma lower_nonempty (s : string) : s ≠ "" → lower s ≠ "".
Proof. by destruct s. Qed.

Lemma truthy_elem (l : list string) (s : string) :
  s ∈ truthy l ↔ s ≠ "" ∧ s ∈ l.
Proof. unfold truthy. by rewrite list_elem_of_filter. Qed.

Lemma cs_claims_nonempty (w k : string) (v : record) :
  k ∈ cs_claims w v → k ≠ "".
Proof. unfold cs_claims, structure_aliases. by intros [H _]%truthy_elem. Qed.

Lemma ci_claims_nonempty (w k : string) (v : record) :
  strip w ≠ "" → k ∈ ci_claims w v → k ≠ "".
Proof.
  intros Hw. unfold ci_claims, name_aliases.
  intros (a & -> & [Ha Hin]%truthy_elem)%list_elem_of_fmap.
  unfold _norm_name. apply lower_nonempty.
  repeat (apply elem_of_cons in Hin as [->|Hin]); try done.
  - by rewrite strip_idemp.
  - by rewrite strip_idemp.
  - by apply elem_of_nil in Hin.
Qed.

(** Every written key that is not empty claims its own normalised form. *)
Lemma ci_claims_written (w : string) (v : record) :
  w ≠ "" → _norm_name w ∈ ci_claims w v.
Proof.
  intros Hw. unfold ci_claims, name_aliases. apply list_elem_of_fmap.
  exists w. split; [done|]. apply truthy_elem. split; [done|]. apply list_elem_of_here.
Qed.

(** ** Well-formed states *)

Section Wf.

Variable st : state.
Hypothesis Hwf : wf st.

Lemma wf_cs (k : string) :
  _alias_cs st !! k = last_claim cs_claims (_cache st) k.
Proof.
  destruct Hwf as (_ & _ & Heq).
  replace (_alias_cs st) with (rebuild_loop (_cache st) ∅ ∅).1 by by rewrite <- Heq.
  rewrite rebuild_loop_cs, lookup_empty.
  by destruct (last_claim cs_claims (_cache st) k).
Qed.

Lemma wf_ci (k : string) :
  _alias_ci st !! k = last_claim ci_claims (_cache st) k.
Proof.
  destruct Hwf as (_ & _ & Heq).
  replace (_alias_ci st) with (rebuild_loop (_cache st) ∅ ∅).2 by by rewrite <- Heq.
  rewrite rebuild_loop_ci, lookup_empty.
  by destruct (last_claim ci_claims (_cache st) k).
Qed.

Lemma wf_key_nonblank (w : string) : w ∈ keys (_cache st) → strip w ≠ "".
Proof.
  destruct Hwf as (_ & Hk & _). rewrite Forall_forall in Hk. apply Hk.
Qed.

Lemma wf_entry_get (w : string) (v : record) :
  (w, v) ∈ _cache st → dict_get (_cache st) w = Some v.
Proof. destruct Hwf as (Hnd & _). by apply dict_get_NoDup. Qed.

(** An alias of either table leads to a written key of the cache that is
    not blank. *)
Lemma wf_alias_target (k w : string) :
  _alias_cs st !! k = Some w ∨ _alias_ci st !! k = Some w →
  strip w ≠ "" ∧ ∃ v, dict_get (_cache st) w = Some v.
Proof.
  rewrite wf_cs, wf_ci.
  intros [(v & Hin & _)%last_claim_Some|(v & Hin & _)%last_claim_Some];
    (split; [by eapply wf_key_nonblank, entry_key | exists v; by apply wf_entry_get]).
Qed.

Lemma via_alias_hit (w : string) (otherwise : option record) :
  strip w ≠ "" → via_alias st (Some w) otherwise = dict_get (_cache st) w.
Proof.
  intros Hw. unfold via_alias. rewrite decide_False; [done|]. by apply strip_nonempty.
Qed.

(** A miss of the cache lookup is a miss at each of its three steps. *)
Lemma lookup_miss_inv (query : string) :
  strip query ≠ "" → _lookup_cache st query = None →
  _alias_cs st !! strip query = None
  ∧ _alias_ci st !! _norm_name query = None
  ∧ dict_get (_cache st) (strip query) = None.
Proof.
  intros Hq. unfold _lookup_cache. rewrite decide_False by done.
  rewrite norm_name_strip.
  destruct (_alias_cs st !! strip query) as [w|] eqn:Ecs.
  { destruct (wf_alias_target (strip query) w) as (Hw & v & Hv); [by left|].
    rewrite via_alias_hit, Hv; done. }
  destruct (_alias_ci st !! _norm_name query) as [w|] eqn:Eci.
  { destruct (wf_alias_target (_norm_name query) w) as (Hw & v & Hv); [by right|].
    unfold via_alias at 1. rewrite via_alias_hit, Hv; done. }
  done.
Qed.

(** A query that misses is not a written key of the cache. *)
Lemma lookup_miss_fresh (query : string) :
  strip query ≠ "" → _lookup_cache st query = None →
  query ∉ keys (_cache st).
Proof.
  intros Hq Hmiss Hin.
  destruct (lookup_miss_inv query Hq Hmiss) as (_ & Hci & _).
  rewrite wf_ci in Hci.
  apply dict_get_is_Some in Hin as [v Hv]. apply dict_get_Some in Hv.
  destruct (proj1 (last_claim_None ci_claims _ _) Hci query v Hv).
  apply ci_claims_written. by apply strip_nonempty.
Qed.

End Wf.

Lemma wf_add_to_cache (st : state) (written : string) (rec : record) :
  wf st → strip written ≠ "" → wf (_add_to_cache st written rec).
Proof.
  intros (Hnd & Hk & _) Hw. unfold wf. cbn. rewrite dict_set_keys.
  split_and!.
  - case_decide as Hin; [done|].
    apply NoDup_app. split_and!; [done| |apply NoDup_singleton].
    intros x Hx ->%list_elem_of_singleton. done.
  - case_decide; [done|]. apply Forall_app. split; [done|]. by apply Forall_singleton.
  - by destruct (rebuild_loop (dict_set (_cache st) written rec) ∅ ∅).
Qed.

Lemma add_to_cache_cache (st : state) (written : string) (rec : record) :
  _cache (_add_to_cache st written rec) = dict_set (_cache st) written rec.
Proof. done. Qed.

(** After the upsert of a query that missed, the query finds its record. *)
Lemma lookup_after_add (st : state) (query : string) (rec : record) :
  wf st → strip query ≠ "" → _lookup_cache st query = None →
  _lookup_cache (_add_to_cache st query rec) query = Some rec.
Proof.
  intros Hwf Hq Hmiss.
  pose proof (lookup_miss_fresh st Hwf query Hq Hmiss) as Hfresh.
  destruct (lookup_miss_inv st Hwf query Hq Hmiss) as (Hcs & _ & _).
  rewrite (wf_cs st Hwf) in Hcs.
  pose proof (wf_add_to_cache st query rec Hwf Hq) as Hwf'.
  set (st' := _add_to_cache st query rec) in *.
  assert (_cache st' = (_cache st ++ [(query, rec)])%list) as Hc
    by (unfold st'; rewrite add_to_cache_cache; by apply dict_set_fresh).
  assert (dict_get (_cache st') query = Some rec) as Hget
    by (unfold st'; rewrite add_to_cache_cache; apply dict_get_set).
  unfold _lookup_cache. rewrite decide_False by done.
  rewrite norm_name_strip, (wf_cs st' Hwf'), (wf_ci st' Hwf'), Hc, !last_claim_app.
  rewrite <- Hc. cbn [last_claim].
  destruct (decide (strip query ∈ cs_claims query rec)).
  { by rewrite via_alias_hit. }
  rewrite Hcs. unfold via_alias at 1.
  rewrite decide_True by (apply ci_claims_written; by apply strip_nonempty).
  by rewrite via_alias_hit.
Qed.

(** ** The steps of [forward] *)

Section Forward.

Variable get_compounds : string → namespace → pcp_reply.

#[local] Abbreviation fetch := (_fetch_from_pubchem get_compounds).
#[local] Abbreviation run := (forward get_compounds).

Lemma fetch_lookup (st : state) (token query : string) :
  _lookup_cache (fetch st token).2 query = _lookup_cache st query.
Proof. done. Qed.

Lemma fetch_wf (st : state) (token : string) : wf st → wf (fetch st token).2.
Proof. done. Qed.

Lemma forward_blank (st : state) (query : string) (fmt : option string) :
  strip query = "" →
  run st query fmt = (Raise (ValueError "Query must be a non-empty string."), st).
Proof. intros Hq. unfold forward. by rewrite decide_True. Qed.

Lemma forward_hit (st : state) (query : string) (fmt : option string) (rec : record) :
  _lookup_cache st query = Some rec →
  run st query fmt = (render rec query (text_or fmt "json"), st).
Proof.
  intros Hhit. unfold forward.
  destruct (decide (strip query = "")) as [Hq|Hq].
  - unfold _lookup_cache in Hhit. by rewrite decide_True in Hhit.
  - by rewrite Hhit.
Qed.

Lemma forward_miss_negative (st : state) (query : string) (fmt : option string) :
  strip query ≠ "" → _lookup_cache st query = None →
  try_namespaces get_compounds query namespaces = None →
  run st query fmt
  = (Return ("No PubChem result found for: " ++ query),
     _add_to_cache (fetch st query).2 query negative_record).
Proof.
  intros Hq Hmiss Hnone. unfold forward.
  rewrite decide_False by done. rewrite Hmiss.
  unfold _fetch_from_pubchem. by rewrite Hnone.
Qed.

Lemma forward_miss_found (st : state) (query : string) (fmt : option string)
    (rec : record) :
  strip query ≠ "" → _lookup_cache st query = None →
  try_namespaces get_compounds query namespaces = Some rec →
  run st query fmt
  = (render rec query (text_or fmt "json"),
     _add_to_cache (fetch st query).2 query rec).
Proof.
  intros Hq Hmiss Hsome. unfold forward.
  rewrite decide_False by done. rewrite Hmiss.
  unfold _fetch_from_pubchem. by rewrite Hsome.
Qed.

#[local] Abbreviation upserted := (upserted get_compounds).

Lemma forward_miss_state (st : state) (query : string) (fmt : option string) :
  strip query ≠ "" → _lookup_cache st query = None →
  (run st query fmt).2 = _add_to_cache (fetch st query).2 query (upserted query).
Proof.
  intros Hq Hmiss. unfold upserted.
  destruct (try_namespaces get_compounds query namespaces) as [rec|] eqn:E.
  - by rewrite (forward_miss_found st query fmt rec).
  - by rewrite (forward_miss_negative st query fmt).
Qed.

(** Well-formedness is an invariant of [forward]. *)
Lemma forward_wf (st : state) (query : string) (fmt : option string) :
  wf st → wf (run st query fmt).2.
Proof.
  intros Hwf. destruct (decide (strip query = "")) as [Hq|Hq].
  { by rewrite forward_blank. }
  destruct (_lookup_cache st query) as [rec|] eqn:E.
  { by rewrite (forward_hit st query fmt rec). }
  rewrite forward_miss_state by done.
  apply wf_add_to_cache; [by apply fetch_wf | done].
Qed.

(** After a call that missed, the same query hits the upserted record. *)
Lemma forward_miss_then_hit (st : state) (query : string) (fmt : option string) :
  wf st → strip query ≠ "" → _lookup_cache st query = None →
  _lookup_cache (run st query fmt).2 query = Some (upserted query).
Proof.
  intros Hwf Hq Hmiss. rewrite forward_miss_state by done.
  apply lookup_after_add; [by apply fetch_wf | done | done].
Qed.

End Forward.

(** ** Cache hits and cache misses *)

(** C10. A call of [forward] whose cache lookup returns a record changes
    nothing: the cache, both alias tables, the cache file and the trace of
    effects (so: no call of the fetch adapter, no write of the file) are the
    same after the call as before. *)
Theorem forward_hit_changes_nothing
    (get_compounds : string → namespace → pcp_reply)
    (st : state) (query : string) (fmt : option string) (rec : record) :
  _lookup_cache st query = Some rec →
  let st' := (forward get_compounds st query fmt).2 in
  st' = st
  ∧ _cache st' = _cache st
  ∧ _alias_cs st' = _alias_cs st
  ∧ _alias_ci st' = _alias_ci st
  ∧ cache_file st' = cache_file st
  ∧ trace st' = trace st.
Proof.
  intros Hhit. cbv zeta. by rewrite (forward_hit get_compounds st query fmt rec Hhit).
Qed.

Lemma forward_hit_changes_nothing_witness :
  _lookup_cache with_water " WATER " = Some (record_of_compound water)
  ∧ (forward no_results with_water " WATER " (Some "cid")).2 = with_water.
Proof.
  assert (_lookup_cache with_water " WATER " = Some (record_of_compound water)) as H
    by (vm_compute; reflexivity).
  split; [exact H|].
  exact (proj1 (forward_hit_changes_nothing no_results with_water " WATER "
                  (Some "cid") (record_of_compound water) H)).
Defined.

(** C9. A call of [forward] whose cache lookup misses reaches the adapter and
    then upserts, whether or not the adapter found a record: the final state
    is [_persist_cache] of [_rebuild_alias_indexes] of the assignment
    [_cache[query] = rec]. The cache gains the entry for the query, the alias
    tables are the full rebuild of the new cache, the file holds the dump of
    the new cache, and the trace grows by the fetch followed by the write. *)
Theorem forward_miss_upserts
    (get_compounds : string → namespace → pcp_reply)
    (st : state) (query : string) (fmt : option string) :
  wf st → strip query ≠ "" → _lookup_cache st query = None →
  let rec := upserted get_compounds query in
  let st' := (forward get_compounds st query fmt).2 in
  st' = _persist_cache (_rebuild_alias_indexes
          (cache_setitem (_fetch_from_pubchem get_compounds st query).2 query rec))
  ∧ _cache st' = (_cache st ++ [(query, rec)])%list
  ∧ _cache st' ≠ _cache st
  ∧ dict_get (_cache st') query = Some rec
  ∧ (_alias_cs st', _alias_ci st') = rebuild_loop (_cache st') ∅ ∅
  ∧ cache_file st' = Some (json_dump_store (_cache st'))
  ∧ trace st' = (trace st ++ [EvFetch query; EvWrite (json_dump_store (_cache st'))])%list.
Proof.
  intros Hwf Hq Hmiss. cbv zeta.
  rewrite forward_miss_state by done.
  pose proof (lookup_miss_fresh st Hwf query Hq Hmiss) as Hfresh.
  assert (_cache (_add_to_cache (_fetch_from_pubchem get_compounds st query).2 query
                    (upserted get_compounds query))
          = (_cache st ++ [(query, upserted get_compounds query)])%list) as Hc.
  { rewrite add_to_cache_cache. by apply dict_set_fresh. }
  split_and!.
  - done.
  - done.
  - rewrite Hc. intros Heq. apply (f_equal length) in Heq.
    rewrite length_app in Heq. cbn in Heq. lia.
  - rewrite add_to_cache_cache. apply dict_get_set.
  - cbn. by destruct (rebuild_loop _ _ _).
  - done.
  - cbn. by rewrite <- app_assoc.
Qed.

Lemma forward_miss_upserts_witness :
  _cache (forward water_service fresh "water" (Some "smiles")).2
  = [("water", record_of_compound water)]
  ∧ trace (forward water_service fresh "water" (Some "smiles")).2
    = [EvWrite "{}"; EvFetch "water";
       EvWrite (json_dump_store [("water", record_of_compound water)])].
Proof.
  assert (wf fresh) as Hwf by (apply (bool_decide_unpack _); vm_compute; exact I).
  assert (strip "water" ≠ "") as Hq by (vm_compute; discriminate).
  assert (_lookup_cache fresh "water" = None) as Hmiss by (vm_compute; reflexivity).
  destruct (forward_miss_upserts water_service fresh "water" (Some "smiles") Hwf Hq Hmiss)
    as (_ & Hc & _ & _ & _ & _ & Ht).
  split.
  - rewrite Hc. vm_compute. reflexivity.
  - rewrite Ht, Hc. vm_compute. reflexivity.
Defined.

(** ** The cache lookup *)

(** On a query that is not blank, the three steps of the code are the three
    steps of the specification. *)
Lemma lookup_cache_nonblank (st : state) (query : string) :
  wf st → strip query ≠ "" → _lookup_cache st query = lookup_spec st query.
Proof.
  intros Hwf Hq. unfold _lookup_cache, lookup_spec.
  rewrite decide_False by done.
  change (_norm_name (strip query)) with (lower (strip (strip query))).
  rewrite strip_idemp.
  destruct (_alias_cs st !! strip query) as [w|] eqn:Ecs.
  { destruct (wf_alias_target st Hwf (strip query) w) as (Hw & _); [by left|].
    by rewrite via_alias_hit. }
  unfold via_alias at 1.
  destruct (_alias_ci st !! lower (strip query)) as [w|] eqn:Eci; [|done].
  destruct (wf_alias_target st Hwf (lower (strip query)) w) as (Hw & _); [by right|].
  by rewrite via_alias_hit.
Qed.

Lemma wf_targets_nonempty (st : state) : wf st → targets_nonempty st.
Proof.
  intros Hwf k w Hk. apply strip_nonempty.
  by destruct (wf_alias_target st Hwf k w Hk).
Qed.

(** C4. The cache lookup is the lookup of the specification: the trimmed
    query, case preserved, in the case-sensitive table; then the trimmed and
    lowered query in the case-insensitive table; then the trimmed query as a
    written key of the store. It returns the record found, or nothing. This
    holds for every query that is not blank, in every state whose tables do
    not lead to the empty written key, also when the tables are not the
    rebuild of the cache and the third step decides. A blank query finds
    nothing; in a well-formed state the lookup of the specification finds
    nothing for it either. *)
Theorem lookup_cache_refines_spec (st : state) (query : string) :
  targets_nonempty st →
  (strip query ≠ "" → _lookup_cache st query = lookup_spec st query)
  ∧ (strip query = "" → _lookup_cache st query = None)
  ∧ (wf st → _lookup_cache st query = lookup_spec st query).
Proof.
  intros Htargets.
  assert (strip query ≠ "" → _lookup_cache st query = lookup_spec st query) as Hlive.
  { intros Hq. unfold _lookup_cache, lookup_spec.
    rewrite decide_False by done.
    change (_norm_name (strip query)) with (lower (strip (strip query))).
    rewrite strip_idemp. unfold via_alias.
    destruct (_alias_cs st !! strip query) as [w|] eqn:Ecs.
    { rewrite decide_False; [done|]. apply (Htargets (strip query)). by left. }
    destruct (_alias_ci st !! lower (strip query)) as [w|] eqn:Eci; [|done].
    rewrite decide_False; [done|]. apply (Htargets (lower (strip query))). by right. }
  split_and!; [done| |].
  { intros Hq. unfold _lookup_cache. by rewrite decide_True. }
  intros Hwf.
  destruct (decide (strip query = "")) as [Hq|Hq]; [|by apply Hlive].
  unfold _lookup_cache, lookup_spec. rewrite decide_True by done.
  rewrite Hq. cbn [lower].
  rewrite (wf_cs st Hwf), (wf_ci st Hwf).
  destruct (last_claim cs_claims (_cache st) "") as [w|] eqn:Ecs.
  { apply last_claim_Some in Ecs as (v & _ & Hk).
    by apply cs_claims_nonempty in Hk. }
  destruct (last_claim ci_claims (_cache st) "") as [w|] eqn:Eci.
  { apply last_claim_Some in Eci as (v & Hin & Hk).
    apply ci_claims_nonempty in Hk; [done|].
    by eapply wf_key_nonblank, entry_key. }
  symmetry. apply dict_get_None. intros Hin.
  by apply (wf_key_nonblank st Hwf) in Hin.
Qed.

Lemma lookup_cache_refines_spec_witness :
  (_lookup_cache with_water "H2O" = lookup_spec with_water "H2O"
   ∧ _alias_cs with_water !! "H2O" = Some "water")
  ∧ (_lookup_cache with_water " Water " = lookup_spec with_water " Water "
     ∧ _alias_cs with_water !! "Water" = None
     ∧ _alias_ci with_water !! "water" = Some "water")
  ∧ (_lookup_cache stale_water " water " = lookup_spec stale_water " water "
     ∧ _alias_cs stale_water !! "water" = None
     ∧ _alias_ci stale_water !! "water" = None
     ∧ lookup_spec stale_water " water " = Some (record_of_compound water)).
Proof.
  assert (targets_nonempty with_water) as Hfull.
  { apply wf_targets_nonempty. apply (bool_decide_unpack _). vm_compute. exact I. }
  assert (targets_nonempty stale_water) as Hstale.
  { intros k w [H|H]; cbn in H; rewrite lookup_empty in H; discriminate H. }
  split_and!.
  - apply (proj1 (lookup_cache_refines_spec with_water "H2O" Hfull)). vm_compute. discriminate.
  - vm_compute. reflexivity.
  - apply (proj1 (lookup_cache_refines_spec with_water " Water " Hfull)). vm_compute. discriminate.
  - vm_compute. reflexivity.
  - vm_compute. reflexivity.
  - apply (proj1 (lookup_cache_refines_spec stale_water " water " Hstale)). vm_compute. discriminate.
  - reflexivity.
  - reflexivity.
  - vm_compute. reflexivity.
Defined.

(** ** Decimal numbers and white space *)

Lemma no_space_lstrip (s : string) : no_space s = true → lstrip s = s.
Proof. destruct s as [|c s]; [done|]. cbn. by destruct (isspace c). Qed.

Lemma no_space_rstrip (s : string) : no_space s = true → rstrip s = s.
Proof.
  induction s as [|c s IH]; [done|]. cbn.
  destruct (isspace c); [done|]. cbn. intros Hs. rewrite IH by done.
  by destruct s.
Qed.

Lemma no_space_strip (s : string) : no_space s = true → strip s = s.
Proof. intros Hs. unfold strip. by rewrite no_space_lstrip, no_space_rstrip. Qed.

Lemma pretty_N_char_no_space (x : N) : isspace (pretty_N_char x) = false.
Proof. unfold pretty_N_char. by repeat case_match. Qed.

Lemma pretty_N_go_plain (x : N) (s : string) :
  s ≠ "" → no_space s = true →
  pretty_N_go x s ≠ "" ∧ no_space (pretty_N_go x s) = true.
Proof.
  revert s. induction (N.lt_wf_0 x) as [x _ IH]; intros s Hs Hns.
  destruct (decide (0 < x)%N) as [Hx|Hx].
  - rewrite pretty_N_go_step by done.
    apply IH; [by apply N.div_lt | done |].
    cbn. by rewrite pretty_N_char_no_space.
  - replace x with 0%N by lia. by rewrite pretty_N_go_0.
Qed.

Lemma pretty_N_plain (x : N) :
  pretty x ≠ "" ∧ no_space (pretty x) = true.
Proof.
  unfold pretty, pretty_N. case_decide as Hx; [done|].
  rewrite pretty_N_go_step by lia.
  apply pretty_N_go_plain; [done|]. cbn. by rewrite pretty_N_char_no_space.
Qed.

(** [str(z)] is not empty and holds no white space. *)
Lemma pretty_Z_plain (z : Z) :
  pretty z ≠ "" ∧ no_space (pretty z) = true.
Proof.
  destruct z as [|p|p].
  - done.
  - apply (pretty_N_plain (N.pos p)).
  - destruct (pretty_N_plain (N.pos p)) as [_ Hns].
    change (pretty (Z.neg p)) with ("-" +:+ pretty (N.pos p)). by split.
Qed.


(** ** The alias index after a rebuild *)

Lemma rebuild_cs (st : state) (k : string) :
  _alias_cs (_rebuild_alias_indexes st) !! k = last_claim cs_claims (_cache st) k.
Proof.
  cbn. rewrite rebuild_loop_cs, lookup_empty.
  by destruct (last_claim cs_claims (_cache st) k).
Qed.

Lemma rebuild_ci (st : state) (k : string) :
  _alias_ci (_rebuild_alias_indexes st) !! k = last_claim ci_claims (_cache st) k.
Proof.
  cbn. rewrite rebuild_loop_ci, lookup_empty.
  by destruct (last_claim ci_claims (_cache st) k).
Qed.

Lemma text_source_intro (fld : option string) (k : string) :
  k ≠ "" → k = strip (or_empty fld) → text_source fld k.
Proof.
  intros Hk ->. destruct fld as [s|]; [|done].
  exists s. by split_and!.
Qed.

Lemma text_source_elim (fld : option string) (k : string) :
  text_source fld k → k ≠ "" ∧ k = strip (or_empty fld).
Proof. intros (s & -> & Hs & ->). by split. Qed.

(** The keys an entry puts into the case-sensitive table are the trimmed
    contents of its structure fields. *)
Lemma structure_aliases_fields (v : record) (k : string) :
  k ∈ structure_aliases v ↔ from_structure_field v k.
Proof.
  unfold structure_aliases, from_structure_field. rewrite truthy_elem. split.
  - intros [Hk Hin].
    repeat (apply elem_of_cons in Hin as [Heq|Hin]).
    + left. by apply text_source_intro.
    + right; left. by apply text_source_intro.
    + right; right; left. by apply text_source_intro.
    + right; right; right. subst k. unfold cid_str in *.
      destruct (cid v) as [|[|c s]|z]; try done.
      * left. by exists (String c s).
      * right. exists z. split; [done|]. cbn [py_str].
        apply no_space_strip, pretty_Z_plain.
    + by apply elem_of_nil in Hin.
  - intros [H|[H|[H|[(s & Hc & Hs & ->)|(z & Hc & ->)]]]].
    + apply text_source_elim in H as [Hk ->]. split; [done|]. apply list_elem_of_here.
    + apply text_source_elim in H as [Hk ->]. split; [done|].
      apply list_elem_of_further, list_elem_of_here.
    + apply text_source_elim in H as [Hk ->]. split; [done|].
      do 2 apply list_elem_of_further. apply list_elem_of_here.
    + split; [done|]. do 3 apply list_elem_of_further. rewrite Hc.
      destruct s as [|c s]; [done|]. apply list_elem_of_here.
    + split; [apply pretty_Z_plain|]. do 3 apply list_elem_of_further. rewrite Hc.
      cbn [cid_str py_str]. rewrite no_space_strip by apply pretty_Z_plain.
      apply list_elem_of_here.
Qed.

(** The keys an entry puts into the case-insensitive table are its names,
    trimmed and lowered. *)
Lemma name_aliases_fields (w : string) (v : record) (k : string) :
  k ∈ ci_claims w v ↔ from_name_field w v k.
Proof.
  unfold ci_claims, name_aliases, from_name_field. rewrite list_elem_of_fmap. split.
  - intros (a & -> & [Ha Hin]%truthy_elem). unfold _norm_name.
    repeat (apply elem_of_cons in Hin as [Heq|Hin]).
    + left. by subst a.
    + right; left. exists a. split; [by apply text_source_intro|].
      subst a. by rewrite strip_idemp.
    + right; right. exists a. split; [by apply text_source_intro|].
      subst a. by rewrite strip_idemp.
    + by apply elem_of_nil in Hin.
  - unfold _norm_name.
    intros [[Hw ->]|[(a & Ha & ->)|(a & Ha & ->)]].
    + exists w. split; [done|]. apply truthy_elem. split; [done|]. apply list_elem_of_here.
    + apply text_source_elim in Ha as [Hk Ha]. exists a. split.
      * rewrite Ha. by rewrite strip_idemp.
      * apply truthy_elem. split; [done|]. rewrite Ha.
        apply list_elem_of_further, list_elem_of_here.
    + apply text_source_elim in Ha as [Hk Ha]. exists a. split.
      * rewrite Ha. by rewrite strip_idemp.
      * apply truthy_elem. split; [done|]. rewrite Ha.
        do 2 apply list_elem_of_further. apply list_elem_of_here.
Qed.

(** [last_claim] finds the last entry that claims the key. *)
Lemma last_claim_last (claims : string → record → list string)
    (items : store) (k w : string) :
  last_claim claims items k = Some w ↔
  last_entry (fun x v => k ∈ claims x v) items w.
Proof.
  unfold last_entry. split.
  - revert w. induction items as [|[x v] rest IH]; intros w; [done|]. cbn [last_claim].
    destruct (last_claim claims rest k) as [w'|] eqn:E.
    + intros [= ->]. destruct (IH w eq_refl) as (before & v' & after & -> & Hk & Hafter).
      by exists ((x, v) :: before), v', after.
    + case_decide as Hk; [|done]. intros [= ->].
      exists [], v, rest. split_and!; [done|done|].
      by apply last_claim_None.
  - intros (before & v & after & -> & Hk & Hafter).
    rewrite last_claim_app. cbn [last_claim].
    rewrite (proj2 (last_claim_None claims after k)) by done.
    by rewrite decide_True.
Qed.

Lemma last_entry_ext (P Q : string → record → Prop) (d : store) (w : string) :
  (∀ x v, P x v ↔ Q x v) → last_entry P d w → last_entry Q d w.
Proof.
  intros HPQ (before & v & after & -> & HP & Hafter).
  exists before, v, after. split_and!; [done | by apply HPQ |].
  intros w' v' Hin HQ. apply (Hafter w' v' Hin). by apply HPQ.
Qed.

(** C7, as the code has it. After [_rebuild_alias_indexes]:
    the case-sensitive table sends a key to the written key of the last
    entry of the cache, in insertion order, one of whose structure fields
    (inchikey, smiles, formula, cid) has that key as its trimmed content; the
    case-insensitive table sends a key to the written key of the last entry
    that has that key as a name (its written key, iupac name or common name,
    trimmed and lowered); and the tables hold nothing else. Hence every alias
    leads to a written key of the cache; no alias comes from a field that is
    [None], empty or blank; the normal form of every written key that is not
    empty is a key of the case-insensitive table, and leads to that written
    key itself unless a later entry has the same name. *)
Theorem rebuild_alias_invariant (st : state) :
  let st' := _rebuild_alias_indexes st in
  (∀ k w, _alias_cs st' !! k = Some w ↔
          last_entry (fun _ v => from_structure_field v k) (_cache st') w)
  ∧ (∀ k w, _alias_ci st' !! k = Some w ↔
          last_entry (fun x v => from_name_field x v k) (_cache st') w)
  ∧ (∀ k w, _alias_cs st' !! k = Some w ∨ _alias_ci st' !! k = Some w →
          w ∈ keys (_cache st'))
  ∧ (∀ k w, _alias_cs st' !! k = Some w →
          k ≠ "" ∧ ∃ v, (w, v) ∈ _cache st' ∧ from_structure_field v k)
  ∧ (∀ k w, _alias_ci st' !! k = Some w →
          ∃ v, (w, v) ∈ _cache st' ∧ from_name_field w v k)
  ∧ (∀ w, w ∈ keys (_cache st') → w ≠ "" →
          ∃ w', _alias_ci st' !! lower (strip w) = Some w'
                ∧ last_entry (fun x v => from_name_field x v (lower (strip w)))
                    (_cache st') w').
Proof.
  cbv zeta. change (_cache (_rebuild_alias_indexes st)) with (_cache st).
  assert (∀ k w, _alias_cs (_rebuild_alias_indexes st) !! k = Some w ↔
            last_entry (fun _ v => from_structure_field v k) (_cache st) w) as Hcs.
  { intros k w. rewrite rebuild_cs, last_claim_last. unfold cs_claims.
    split; apply last_entry_ext; intros x v; by rewrite structure_aliases_fields. }
  assert (∀ k w, _alias_ci (_rebuild_alias_indexes st) !! k = Some w ↔
            last_entry (fun x v => from_name_field x v k) (_cache st) w) as Hci.
  { intros k w. rewrite rebuild_ci, last_claim_last.
    split; apply last_entry_ext; intros x v; by rewrite name_aliases_fields. }
  split_and!; [done|done| | | |].
  - intros k w. rewrite rebuild_cs, rebuild_ci.
    intros [(v & Hin & _)%last_claim_Some|(v & Hin & _)%last_claim_Some];
      by eapply entry_key.
  - intros k w. rewrite rebuild_cs. intros (v & Hin & Hk)%last_claim_Some.
    split; [by eapply cs_claims_nonempty|].
    exists v. split; [done|]. by apply structure_aliases_fields.
  - intros k w. rewrite rebuild_ci. intros (v & Hin & Hk)%last_claim_Some.
    exists v. split; [done|]. by apply name_aliases_fields.
  - intros w [v Hin]%key_entry Hw.
    destruct (last_claim_is_Some ci_claims (_cache st) (lower (strip w)) w v Hin)
      as [w' Hw']; [by apply ci_claims_written|].
    exists w'. split; [by rewrite rebuild_ci|]. apply Hci. by rewrite rebuild_ci.
Qed.

Lemma rebuild_alias_invariant_witness :
  _alias_ci (_rebuild_alias_indexes water_then_aqua) !! "water" = Some "aqua"
  ∧ "aqua" ∈ keys (_cache water_then_aqua)
  ∧ _alias_cs (_rebuild_alias_indexes water_then_aqua) !! "H2O" = Some "water".
Proof.
  destruct (rebuild_alias_invariant water_then_aqua) as (Hcs & Hci & Hkeys & _).
  assert (_cache water_then_aqua
          = [("water", record_of_compound water); ("aqua", record_of_compound aqua)]) as Hc
    by (vm_compute; reflexivity).
  assert (_alias_ci (_rebuild_alias_indexes water_then_aqua) !! "water" = Some "aqua") as H.
  { apply Hci. change (_cache (_rebuild_alias_indexes water_then_aqua))
      with (_cache water_then_aqua). rewrite Hc.
    exists [("water", record_of_compound water)], (record_of_compound aqua), [].
    split_and!; [reflexivity| |].
    - right; right. exists "Water". split; [|reflexivity].
      exists "Water". split_and!; [reflexivity | vm_compute; discriminate | reflexivity].
    - intros w' v' Hin. by apply elem_of_nil in Hin. }
  split_and!; [exact H | |].
  - apply (Hkeys "water" "aqua"). right. exact H.
  - apply Hcs. change (_cache (_rebuild_alias_indexes water_then_aqua))
      with (_cache water_then_aqua). rewrite Hc.
    exists [], (record_of_compound water), [("aqua", record_of_compound aqua)].
    split_and!; [reflexivity| |].
    + right; right; left. exists "H2O".
      split_and!; [reflexivity | vm_compute; discriminate | reflexivity].
    + intros w' v' [[= -> ->]|Hin%elem_of_nil]%elem_of_cons; [|done].
      intros [H'|[H'|[H'|[H'|H']]]].
      * destruct H' as (s & Hs & _ & Hk). vm_compute in Hs. injection Hs as <-.
        vm_compute in Hk. discriminate Hk.
      * destruct H' as (s & Hs & _ & Hk). vm_compute in Hs. injection Hs as <-.
        vm_compute in Hk. discriminate Hk.
      * destruct H' as (s & Hs & _ & Hk). vm_compute in Hs. injection Hs as <-.
        vm_compute in Hk. discriminate Hk.
      * destruct H' as (s & Hs & _). vm_compute in Hs. discriminate Hs.
      * destruct H' as (z & Hz & Hk). vm_compute in Hz. injection Hz as <-.
        vm_compute in Hk. discriminate Hk.
Defined.

(** C7, as the specification words it, fails for the written key as its own
    alias. After [forward("water")] and then [forward("aqua")], answered with
    a compound whose first synonym is [Water], the state is well-formed and
    its tables are rebuilt tables; ["water"] is a written key of the cache,
    but the case-insensitive table sends ["water"] to the written key
    ["aqua"], and the query ["water"] returns the other record. And a cache
    file that holds an entry under the empty written key loads into a store
    whose written key has no alias at all. *)
Lemma written_key_alias_taken_over :
  (wf water_then_aqua
   ∧ _rebuild_alias_indexes water_then_aqua = water_then_aqua
   ∧ "water" ∈ keys (_cache water_then_aqua)
   ∧ _alias_ci water_then_aqua !! _norm_name "water" = Some "aqua"
   ∧ _alias_ci water_then_aqua !! _norm_name "water" ≠ Some "water"
   ∧ _lookup_cache water_then_aqua "water" = Some (record_of_compound aqua))
  ∧ (_rebuild_alias_indexes loaded_empty_key = loaded_empty_key
     ∧ "" ∈ keys (_cache loaded_empty_key)
     ∧ _alias_ci loaded_empty_key !! _norm_name "" = None
     ∧ _alias_ci loaded_empty_key = ∅
     ∧ _alias_cs loaded_empty_key = ∅).
Proof.
  split; split_and!.
  - apply (bool_decide_unpack _). vm_compute. exact I.
  - vm_compute. reflexivity.
  - apply (bool_decide_unpack _). vm_compute. exact I.
  - vm_compute. reflexivity.
  - vm_compute. discriminate.
  - vm_compute. reflexivity.
  - vm_compute. reflexivity.
  - apply (bool_decide_unpack _). vm_compute. exact I.
  - vm_compute. reflexivity.
  - vm_compute. reflexivity.
  - vm_compute. reflexivity.
Qed.

(** ** Case sensitivity of the two tables *)

(** A query whose normalised form is claimed by an entry is not blank. *)
Lemma claimed_query_nonblank (st : state) (w query : string) (v : record) :
  wf st → (w, v) ∈ _cache st → _norm_name query ∈ ci_claims w v →
  strip query ≠ "".
Proof.
  intros Hwf Hin Hk Hq.
  apply ci_claims_nonempty in Hk; [|by eapply wf_key_nonblank, entry_key].
  apply Hk. unfold _norm_name. by rewrite Hq.
Qed.

Section CaseSensitivity.

Variable st : state.
Hypothesis Hwf : wf st.

Lemma wf_cs_last (k w : string) :
  _alias_cs st !! k = Some w ↔
  last_entry (fun _ v => from_structure_field v k) (_cache st) w.
Proof.
  rewrite (wf_cs st Hwf), last_claim_last. unfold cs_claims.
  split; apply last_entry_ext; intros x v; by rewrite structure_aliases_fields.
Qed.

Lemma wf_ci_last (k w : string) :
  _alias_ci st !! k = Some w ↔
  last_entry (fun x v => from_name_field x v k) (_cache st) w.
Proof.
  rewrite (wf_ci st Hwf), last_claim_last.
  split; apply last_entry_ext; intros x v; by rewrite name_aliases_fields.
Qed.

(** A query whose trimmed form is a structure field of an entry is answered
    by the case-sensitive table, with a record that has this field. *)
Lemma structure_query_hits (W : string) (R : record) (q : string) :
  (W, R) ∈ _cache st → from_structure_field R (strip q) →
  strip q ≠ ""
  ∧ ∃ W' R', _alias_cs st !! strip q = Some W'
             ∧ (W', R') ∈ _cache st
             ∧ from_structure_field R' (strip q)
             ∧ _lookup_cache st q = Some R'.
Proof.
  intros Hin Hk. apply structure_aliases_fields in Hk.
  assert (strip q ≠ "") as Hq by by eapply (cs_claims_nonempty W).
  split; [done|].
  destruct (last_claim_is_Some cs_claims (_cache st) (strip q) W R Hin Hk) as [W' E].
  pose proof E as (R' & Hin' & Hk')%last_claim_Some.
  exists W', R'. rewrite (wf_cs st Hwf). split_and!; [done|done| |].
  - by apply structure_aliases_fields.
  - rewrite lookup_cache_nonblank by done. unfold lookup_spec.
    rewrite (wf_cs st Hwf), E. by apply wf_entry_get.
Qed.

(** A query whose trimmed and lowered form is a name of an entry is answered
    from the cache. *)
Lemma name_query_hits (W : string) (R : record) (q : string) :
  (W, R) ∈ _cache st → from_name_field W R (lower (strip q)) →
  strip q ≠ ""
  ∧ (∃ W' R', _alias_ci st !! lower (strip q) = Some W'
              ∧ (W', R') ∈ _cache st
              ∧ from_name_field W' R' (lower (strip q)))
  ∧ is_Some (_lookup_cache st q).
Proof.
  intros Hin Hk. apply name_aliases_fields in Hk.
  pose proof (claimed_query_nonblank st W q R Hwf Hin Hk) as Hq.
  destruct (last_claim_is_Some ci_claims (_cache st) (lower (strip q)) W R Hin Hk)
    as [W' E].
  pose proof E as (R' & Hin' & Hk')%last_claim_Some.
  split_and!; [done| |].
  - exists W', R'. rewrite (wf_ci st Hwf). split_and!; [done|done|].
    by apply name_aliases_fields.
  - rewrite lookup_cache_nonblank by done. unfold lookup_spec.
    destruct (_alias_cs st !! strip q) as [w|] eqn:Ecs.
    + destruct (wf_alias_target st Hwf (strip q) w) as (_ & r & Hr); [by left | by eexists].
    + rewrite (wf_ci st Hwf), E. exists R'. by apply wf_entry_get.
Qed.

End CaseSensitivity.

(** C6, as the code has it. In a well-formed state:
    (a) the case-sensitive table sends the trimmed query, case preserved, to
    the last entry one of whose structure fields (inchikey, smiles, formula,
    cid) has exactly this trimmed content, and to nothing else; a query that
    is such a content finds a record that has it, and the very record when
    no other entry has it;
    (b) a query that differs from every stored structure alias, if only by
    case, finds nothing in that table; it finds nothing at all when no entry
    has it as a name either, but it is answered from the cache as soon as an
    entry has it as a name, for instance as the written key of the record;
    (c) a name (written key, iupac name, common name) matches every query
    that equals it after trimming and lowering: the case-insensitive table
    holds it, the query is answered, and by that very record when no other
    entry has the name and the query is no structure alias. *)
Theorem alias_case_sensitivity (st : state) :
  wf st →
  (∀ q W, _alias_cs st !! strip q = Some W ↔
          last_entry (fun _ v => from_structure_field v (strip q)) (_cache st) W)
  ∧ (∀ W R q, (W, R) ∈ _cache st → from_structure_field R (strip q) →
       (∃ W' R', _alias_cs st !! strip q = Some W'
                 ∧ (W', R') ∈ _cache st
                 ∧ from_structure_field R' (strip q)
                 ∧ _lookup_cache st q = Some R')
       ∧ ((∀ W' R', (W', R') ∈ _cache st → from_structure_field R' (strip q) → W' = W) →
          _lookup_cache st q = Some R))
  ∧ (∀ q, (∀ W R, (W, R) ∈ _cache st → ¬ from_structure_field R (strip q)) →
       _alias_cs st !! strip q = None
       ∧ ((∀ W R, (W, R) ∈ _cache st → ¬ from_name_field W R (lower (strip q))) →
          _lookup_cache st q = None)
       ∧ (∀ W R, (W, R) ∈ _cache st → from_name_field W R (lower (strip q)) →
          is_Some (_lookup_cache st q)))
  ∧ (∀ W R q, (W, R) ∈ _cache st → from_name_field W R (lower (strip q)) →
       (∃ W' R', _alias_ci st !! lower (strip q) = Some W'
                 ∧ (W', R') ∈ _cache st
                 ∧ from_name_field W' R' (lower (strip q)))
       ∧ is_Some (_lookup_cache st q)
       ∧ ((∀ W' R', (W', R') ∈ _cache st → from_name_field W' R' (lower (strip q)) →
                    W' = W) →
          _alias_cs st !! strip q = None →
          _lookup_cache st q = Some R)).
Proof.
  intros Hwf. split_and!.
  - intros q W. by apply wf_cs_last.
  - intros W R q Hin Hk.
    destruct (structure_query_hits st Hwf W R q Hin Hk)
      as (Hq & W' & R' & Hcs & Hin' & Hk' & Hlook).
    split; [by exists W', R'|].
    intros Huniq. pose proof (Huniq W' R' Hin' Hk') as ->.
    rewrite Hlook. f_equal.
    pose proof (wf_entry_get st Hwf W R Hin) as H1.
    pose proof (wf_entry_get st Hwf W R' Hin') as H2. congruence.
  - intros q Hnone.
    assert (_alias_cs st !! strip q = None) as Hcs.
    { rewrite (wf_cs st Hwf). apply (proj2 (last_claim_None cs_claims _ _)).
      intros W R Hin Hk. apply (Hnone W R Hin). by apply structure_aliases_fields. }
    split_and!; [done| |].
    + intros Hnames.
      assert (_alias_ci st !! _norm_name q = None) as Hci.
      { rewrite (wf_ci st Hwf). apply (proj2 (last_claim_None ci_claims _ _)).
        intros W R Hin Hk. apply (Hnames W R Hin). by apply name_aliases_fields. }
      unfold _lookup_cache. case_decide as Hq; [done|].
      rewrite Hcs, norm_name_strip, Hci. cbn [via_alias].
      apply dict_get_None. intros [v Hin]%key_entry.
      apply (Hnames (strip q) v Hin). left. split; [done|]. by rewrite strip_idemp.
    + intros W R Hin Hk. by destruct (name_query_hits st Hwf W R q Hin Hk) as (_ & _ & H).
  - intros W R q Hin Hk.
    destruct (name_query_hits st Hwf W R q Hin Hk) as (Hq & Htable & Hhit).
    split_and!; [done|done|].
    intros Huniq Hcs.
    rewrite lookup_cache_nonblank by done. unfold lookup_spec. rewrite Hcs.
    rewrite (wf_ci st Hwf).
    rewrite (last_claim_unique ci_claims (_cache st) (lower (strip q)) W R Hin).
    + by apply wf_entry_get.
    + by apply name_aliases_fields.
    + intros W' R' Hin' Hk'. apply (Huniq W' R' Hin'). by apply name_aliases_fields.
Qed.

Lemma alias_case_sensitivity_witness :
  _lookup_cache with_aspirin "ABC-123" = Some (record_of_compound aspirin)
  ∧ _lookup_cache with_aspirin " C9H8O4 " = Some (record_of_compound aspirin)
  ∧ _lookup_cache with_aspirin "CC(=O)OC1=CC=CC=C1C(=O)O" = Some (record_of_compound aspirin)
  ∧ _lookup_cache with_aspirin "2244" = Some (record_of_compound aspirin)
  ∧ _lookup_cache with_aspirin "abc-123" = None
  ∧ _lookup_cache with_aspirin " aspirin " = Some (record_of_compound aspirin)
  ∧ _lookup_cache with_aspirin "2-Acetyloxybenzoic ACID" = Some (record_of_compound aspirin).
Proof.
  assert (wf with_aspirin) as Hwf by (apply (bool_decide_unpack _); vm_compute; exact I).
  assert (_cache with_aspirin = [("Aspirin", record_of_compound aspirin)]) as Hc
    by (vm_compute; reflexivity).
  assert (("Aspirin", record_of_compound aspirin) ∈ _cache with_aspirin) as Hin
    by (rewrite Hc; apply list_elem_of_here).
  assert (∀ W R, (W, R) ∈ _cache with_aspirin → W = "Aspirin") as Honly.
  { intros W R. rewrite Hc. by intros [[= -> ->]|[]%elem_of_nil]%elem_of_cons. }
  destruct (alias_case_sensitivity with_aspirin Hwf) as (_ & Ha & Hb & Hc').
  split_and!.
  - apply (Ha "Aspirin" _ "ABC-123" Hin); [|intros W R HinW _; exact (Honly W R HinW)].
    left. exists "ABC-123". split_and!; [reflexivity | vm_compute; discriminate | reflexivity].
  - apply (Ha "Aspirin" _ " C9H8O4 " Hin); [|intros W R HinW _; exact (Honly W R HinW)].
    right; right; left. exists "C9H8O4".
    split_and!; [reflexivity | vm_compute; discriminate | reflexivity].
  - apply (Ha "Aspirin" _ "CC(=O)OC1=CC=CC=C1C(=O)O" Hin); [|intros W R HinW _; exact (Honly W R HinW)].
    right; left. exists "CC(=O)OC1=CC=CC=C1C(=O)O".
    split_and!; [reflexivity | vm_compute; discriminate | reflexivity].
  - apply (Ha "Aspirin" _ "2244" Hin); [|intros W R HinW _; exact (Honly W R HinW)].
    right; right; right; right. exists 2244. split; reflexivity.
  - apply (Hb "abc-123").
    + intros W R. rewrite Hc. intros [[= -> ->]|[]%elem_of_nil]%elem_of_cons.
      rewrite <- structure_aliases_fields.
      apply (bool_decide_unpack _). vm_compute. exact I.
    + intros W R. rewrite Hc. intros [[= -> ->]|[]%elem_of_nil]%elem_of_cons.
      rewrite <- name_aliases_fields.
      apply (bool_decide_unpack _). vm_compute. exact I.
  - apply (Hc' "Aspirin" _ " aspirin " Hin); [|intros W R HinW _; exact (Honly W R HinW)|vm_compute; reflexivity].
    left. split; [discriminate | reflexivity].
  - apply (Hc' "Aspirin" _ "2-Acetyloxybenzoic ACID" Hin);
      [|intros W R HinW _; exact (Honly W R HinW)|vm_compute; reflexivity].
    right; left. exists "2-acetyloxybenzoic acid". split; [|reflexivity].
    exists "2-acetyloxybenzoic acid".
    split_and!; [reflexivity | vm_compute; discriminate | reflexivity].
Defined.

(** C6, as the specification words it, fails when the structure alias is
    also the written key. After [forward("ABC-123")], answered by the
    inchikey namespace with a compound of inchikey ["ABC-123"], the cache
    holds one entry; ["abc-123"] is neither a written key nor a structure
    alias of it and was never cached. Yet [forward("abc-123", "inchikey")]
    returns ["ABC-123"] from the cache, with no adapter call: the written
    key is matched without regard to case. *)
Lemma structure_alias_reached_through_written_key :
  wf keyed_by_inchikey
  ∧ _cache keyed_by_inchikey = [("ABC-123", record_of_compound aspirin)]
  ∧ inchikey (record_of_compound aspirin) = Some "ABC-123"
  ∧ ("abc-123" ∉ keys (_cache keyed_by_inchikey))
  ∧ ("abc-123" ∉ structure_aliases (record_of_compound aspirin))
  ∧ ¬ from_structure_field (record_of_compound aspirin) "abc-123"
  ∧ _alias_cs keyed_by_inchikey !! "abc-123" = None
  ∧ forward by_inchikey keyed_by_inchikey "abc-123" (Some "inchikey")
    = (Return "ABC-123", keyed_by_inchikey).
Proof.
  split_and!.
  - apply (bool_decide_unpack _). vm_compute. exact I.
  - vm_compute. reflexivity.
  - reflexivity.
  - apply (bool_decide_unpack _). vm_compute. exact I.
  - apply (bool_decide_unpack _). vm_compute. exact I.
  - rewrite <- structure_aliases_fields. apply (bool_decide_unpack _). vm_compute. exact I.
  - vm_compute. reflexivity.
  - vm_compute. reflexivity.
Qed.

(** ** The records that [forward] inserts *)

Lemma stored_text_or (upstream : option string) :
  stored_text upstream (PStr (text_or upstream "")).
Proof.
  unfold stored_text, text_or. destruct upstream as [s|].
  - case_decide as Hs; [right; subst; by split; [right|] | left; by exists s].
  - right. by split; [left|].
Qed.

Lemma try_namespaces_Some (get_compounds : string → namespace → pcp_reply)
    (token : string) (nss : list namespace) (rec : record) :
  try_namespaces get_compounds token nss = Some rec →
  ∃ ns p rest c, ns ∈ nss ∧ get_compounds token ns = PcpCompounds (p :: rest)
                 ∧ read_compound p = Some c
                 ∧ rec = record_of_compound c.
Proof.
  induction nss as [|ns nss IH]; [done|]. cbn [try_namespaces].
  assert (try_namespaces get_compounds token nss = Some rec →
          ∃ ns' p rest c, ns' ∈ ns :: nss
            ∧ get_compounds token ns' = PcpCompounds (p :: rest)
            ∧ read_compound p = Some c ∧ rec = record_of_compound c) as Hrest.
  { intros (ns' & p & rest & c & Hin & H)%IH.
    exists ns', p, rest, c. split; [by apply list_elem_of_further | done]. }
  destruct (get_compounds token ns) as [|[|p rest]] eqn:E; [done|done|].
  destruct (read_compound p) as [c|] eqn:Hread; [|done].
  intros [= <-]. exists ns, p, rest, c. split; [apply list_elem_of_here | done].
Qed.

(** C8, as the code has it. The record that a call of [forward] inserts (a
    call whose cache lookup misses; no other call inserts one) is either the
    record with all six fields [None], when the adapter found nothing, or the
    record of the first compound [c] that the service returned and that
    could be read. In that record each text field is a string, never [None]:
    the upstream attribute when that is a non-empty string, else the empty
    string (smiles from the isomeric smiles, else from the plain smiles; the
    common name from the first synonym). Its cid is the upstream cid
    unchanged, the integer itself and not a string, whenever the upstream cid
    is a non-zero integer, and the empty string only when the upstream cid is
    missing or zero. *)
Theorem inserted_record_fields
    (get_compounds : string → namespace → pcp_reply)
    (st : state) (query : string) (fmt : option string) :
  strip query ≠ "" → _lookup_cache st query = None →
  let st' := (forward get_compounds st query fmt).2 in
  ∃ rec, _cache st' = dict_set (_cache st) query rec
    ∧ ((try_namespaces get_compounds query namespaces = None
        ∧ ∀ f, rec_get rec f = PNone)
       ∨ (∃ ns p rest c,
            try_namespaces get_compounds query namespaces = Some rec
            ∧ get_compounds query ns = PcpCompounds (p :: rest)
            ∧ read_compound p = Some c
            ∧ stored_text (c_iupac_name c) (rec_get rec Fiupac_name)
            ∧ stored_text (c_inchikey c) (rec_get rec Finchikey)
            ∧ (∀ s, c_isomeric_smiles c = Some s → s ≠ "" →
               rec_get rec Fsmiles = PStr s)
            ∧ (c_isomeric_smiles c = None ∨ c_isomeric_smiles c = Some "" →
               stored_text (c_smiles c) (rec_get rec Fsmiles))
            ∧ (∀ s syn, c_synonyms c = Some (s :: syn) →
               stored_text (Some s) (rec_get rec Fcommon_name))
            ∧ (c_synonyms c = None ∨ c_synonyms c = Some [] →
               rec_get rec Fcommon_name = PStr "")
            ∧ stored_text (c_molecular_formula c) (rec_get rec Fformula)
            ∧ (∀ z, c_cid c = Some z → z ≠ 0 → rec_get rec Fcid = PInt z)
            ∧ (c_cid c = None ∨ c_cid c = Some 0 → rec_get rec Fcid = PStr "")
            ∧ (rec_get rec Fcid = PStr "" → c_cid c = None ∨ c_cid c = Some 0))).
Proof.
  intros Hq Hmiss. cbv zeta. rewrite forward_miss_state by done.
  exists (upserted get_compounds query). split; [done|]. unfold upserted.
  destruct (try_namespaces get_compounds query namespaces) as [rec|] eqn:E.
  - right. apply try_namespaces_Some in E as (ns & p & rest & c & _ & Hns & Hread & ->).
    exists ns, p, rest, c. split_and!; try done.
    + apply stored_text_or.
    + apply stored_text_or.
    + intros s Hiso Hs. cbn [rec_get smiles record_of_compound of_text].
      rewrite Hiso. unfold text_or at 1. by rewrite decide_False.
    + intros Hiso. cbn [rec_get smiles record_of_compound of_text].
      replace (text_or (c_isomeric_smiles c) (text_or (c_smiles c) ""))
        with (text_or (c_smiles c) ""); [apply stored_text_or|].
      by destruct Hiso as [-> | ->].
    + intros s syn Hsyn. cbn [rec_get common_name record_of_compound of_text].
      rewrite Hsyn. apply (stored_text_or (Some s)).
    + intros Hsyn. cbn [rec_get common_name record_of_compound of_text].
      by destruct Hsyn as [-> | ->].
    + apply stored_text_or.
    + intros z Hz Hne. cbn. rewrite Hz. by rewrite decide_False.
    + intros [Hz|Hz]; cbn; by rewrite Hz.
    + cbn. destruct (c_cid c) as [z|]; [|by left].
      case_decide as Hz; [subst; by right | done].
  - left. split; [done|]. by intros [].
Qed.

Lemma inserted_record_fields_witness :
  ∃ rec, _cache (forward water_service fresh "water" (Some "smiles")).2
         = dict_set (_cache fresh) "water" rec
         ∧ rec_get rec Fcid = PInt 962
         ∧ rec_get rec Fsmiles = PStr "O".
Proof.
  assert (strip "water" ≠ "") as Hq by (vm_compute; discriminate).
  assert (_lookup_cache fresh "water" = None) as Hmiss by (vm_compute; reflexivity).
  destruct (inserted_record_fields water_service fresh "water" (Some "smiles") Hq Hmiss)
    as (rec & Hc & Hrec).
  exists rec. split; [exact Hc|].
  destruct Hrec as [[Hnone _]|(ns & p & rest & c & _ & Hns & Hread & Hfields)].
  { vm_compute in Hnone. discriminate Hnone. }
  assert (c = water) as ->.
  { destruct ns; vm_compute in Hns; try discriminate Hns.
    injection Hns as <- _. vm_compute in Hread. by injection Hread as <-. }
  destruct Hfields as (_ & _ & _ & Hsmiles & _ & _ & _ & Hcid & _).
  split.
  - apply (Hcid 962); [reflexivity | discriminate].
  - destruct (Hsmiles (or_introl eq_refl)) as [(s & [= <-] & _ & H)|[[H|H] _]];
      [exact H | discriminate H | discriminate H].
Defined.

(** C8 at the failing input. After [forward("water", "smiles")] on a new
    instance, with a service that knows water under CID 962, the inserted
    record holds the integer 962, which is neither a string nor [None]. *)
Lemma inserted_cid_is_a_number :
  let st' := (forward water_service fresh "water" (Some "smiles")).2 in
  ∃ rec, dict_get (_cache st') "water" = Some rec
         ∧ rec_get rec Fcid = PInt 962
         ∧ ¬ str_or_null (rec_get rec Fcid).
Proof.
  exists (record_of_compound water). split_and!.
  - vm_compute. reflexivity.
  - vm_compute. reflexivity.
  - intros [H|[s H]]; vm_compute in H; discriminate H.
Qed.

(** ** Alias symmetry *)

Lemma inchikey_is_structure_alias (R : record) (s : string) :
  inchikey R = Some s → strip s ≠ "" → strip s ∈ structure_aliases R.
Proof.
  intros HR Hs. unfold structure_aliases. apply truthy_elem. split; [done|].
  rewrite HR. apply list_elem_of_here.
Qed.

(** The lookup of a query that only the entry [W] claims, in whichever table
    it is found, returns the record of [W]. *)
Lemma lookup_unshadowed (st : state) (W : string) (R : record) :
  wf st → dict_get (_cache st) W = Some R →
  (∀ W' R', (W', R') ∈ _cache st → strip W ∈ structure_aliases R' → W' = W) →
  (∀ W' R', (W', R') ∈ _cache st → _norm_name W ∈ ci_claims W' R' → W' = W) →
  _lookup_cache st W = Some R.
Proof.
  intros Hwf HW Hcs Hci.
  pose proof (dict_get_Some _ _ _ HW) as Hin.
  pose proof (wf_key_nonblank st Hwf W (entry_key _ _ _ Hin)) as Hq.
  rewrite lookup_cache_nonblank by done. unfold lookup_spec.
  rewrite (wf_cs st Hwf).
  destruct (last_claim cs_claims (_cache st) (strip W)) as [W'|] eqn:E.
  { apply last_claim_Some in E as (R' & Hin' & Hk').
    by rewrite (Hcs W' R' Hin' Hk'). }
  change (lower (strip W)) with (_norm_name W). rewrite (wf_ci st Hwf).
  rewrite (last_claim_unique ci_claims (_cache st) (_norm_name W) W R); try done.
  apply ci_claims_written. by apply strip_nonempty.
Qed.

(** C5, as the code has it. Let [R] be stored under the written key [W] with
    inchikey ["ABC-123"], let no other entry claim ["ABC-123"] as a structure
    alias, and let no other entry claim [W] itself, neither as a structure
    alias nor, up to case, as a name. Then [forward("ABC-123", "json")] and
    [forward(W, "json")] return the same text, the serialised [R], and leave
    the state as it was: the adapter is not called. *)
Theorem alias_symmetry
    (get_compounds : string → namespace → pcp_reply)
    (st : state) (W : string) (R : record) :
  wf st → dict_get (_cache st) W = Some R → inchikey R = Some "ABC-123" →
  (∀ W' R', (W', R') ∈ _cache st → "ABC-123" ∈ structure_aliases R' → W' = W) →
  (∀ W' R', (W', R') ∈ _cache st → strip W ∈ structure_aliases R' → W' = W) →
  (∀ W' R', (W', R') ∈ _cache st → _norm_name W ∈ ci_claims W' R' → W' = W) →
  forward get_compounds st "ABC-123" (Some "json") = (Return (json_dumps R), st)
  ∧ forward get_compounds st W (Some "json") = (Return (json_dumps R), st).
Proof.
  intros Hwf HW HR Hkey Hcs Hci.
  pose proof (dict_get_Some _ _ _ HW) as Hin.
  split.
  - apply (forward_hit get_compounds st "ABC-123" (Some "json") R).
    assert (strip "ABC-123" ≠ "") as Hq by (vm_compute; discriminate).
    rewrite lookup_cache_nonblank by done. unfold lookup_spec.
    change (strip "ABC-123") with "ABC-123".
    rewrite (wf_cs st Hwf).
    rewrite (last_claim_unique cs_claims (_cache st) "ABC-123" W R); try done.
    by apply (inchikey_is_structure_alias R "ABC-123").
  - apply (forward_hit get_compounds st W (Some "json") R).
    by apply lookup_unshadowed.
Qed.

Lemma alias_symmetry_witness :
  forward no_results with_aspirin "ABC-123" (Some "json")
  = (Return (json_dumps (record_of_compound aspirin)), with_aspirin)
  ∧ forward no_results with_aspirin "Aspirin" (Some "json")
    = (Return (json_dumps (record_of_compound aspirin)), with_aspirin).
Proof.
  assert (_cache with_aspirin = [("Aspirin", record_of_compound aspirin)]) as Hc
    by (vm_compute; reflexivity).
  apply alias_symmetry.
  - apply (bool_decide_unpack _). vm_compute. exact I.
  - vm_compute. reflexivity.
  - reflexivity.
  - intros W R. rewrite Hc. by intros [[= -> ->]|[]%elem_of_nil]%elem_of_cons.
  - intros W R. rewrite Hc. by intros [[= -> ->]|[]%elem_of_nil]%elem_of_cons.
  - intros W R. rewrite Hc. by intros [[= -> ->]|[]%elem_of_nil]%elem_of_cons.
Defined.

(** C5, as the specification words it, fails when another entry claims the
    written key itself. After [forward("CO")], answered with methanol
    (inchikey ["ABC-123"], SMILES [CO]), and [forward("carbon monoxide")],
    answered with a compound of formula [CO], the record of methanol is stored
    under ["CO"] and nobody else claims ["ABC-123"]; yet ["ABC-123"] returns
    methanol and ["CO"] returns carbon monoxide. *)
Lemma alias_symmetry_fails_when_key_is_claimed :
  wf two_records
  ∧ dict_get (_cache two_records) "CO" = Some (record_of_compound methanol)
  ∧ inchikey (record_of_compound methanol) = Some "ABC-123"
  ∧ (∀ W' R', (W', R') ∈ _cache two_records →
       "ABC-123" ∈ structure_aliases R' ∨ _norm_name "ABC-123" ∈ ci_claims W' R' →
       W' = "CO")
  ∧ forward co_service two_records "ABC-123" (Some "json")
    = (Return (json_dumps (record_of_compound methanol)), two_records)
  ∧ forward co_service two_records "CO" (Some "json")
    = (Return (json_dumps (record_of_compound carbon_monoxide)), two_records)
  ∧ (forward co_service two_records "ABC-123" (Some "json")).1
    ≠ (forward co_service two_records "CO" (Some "json")).1.
Proof.
  assert (_cache two_records
          = [("CO", record_of_compound methanol);
             ("carbon monoxide", record_of_compound carbon_monoxide)]) as Hc
    by (vm_compute; reflexivity).
  split_and!.
  - apply (bool_decide_unpack _). vm_compute. exact I.
  - vm_compute. reflexivity.
  - reflexivity.
  - intros W R. rewrite Hc.
    intros [[= -> ->]|[[= -> ->]|[]%elem_of_nil]%elem_of_cons]%elem_of_cons; [done|].
    intros [H|H]; exfalso; revert H; apply (bool_decide_unpack _); vm_compute; exact I.
  - vm_compute. reflexivity.
  - vm_compute. reflexivity.
  - vm_compute. discriminate.
Qed.

(** ** Negative results and unknown output formats *)

Lemma render_negative_differs (query output_format : string) :
  render negative_record query output_format
  ≠ Return ("No PubChem result found for: " ++ query).
Proof.
  unfold render. case_decide as Hj; [by vm_compute|].
  destruct (field_of_name output_format) as [f|]; [|done].
  by destruct f.
Qed.

Lemma render_negative_field (query : string) (f : field) :
  render negative_record query (field_name f)
  = Return ("No value for '" ++ field_name f ++ "' found for: " ++ query).
Proof. by destruct f. Qed.

Lemma render_invalid (rec : record) (query : string) (fmt : option string) :
  invalid_format fmt →
  render rec query (text_or fmt "json") = Raise (ValueError output_format_error).
Proof.
  intros [Hj Hf]. unfold render. rewrite decide_False by done. by rewrite Hf.
Qed.

Lemma fetch_count_after_miss (token : string) (tr : list event) (text : string) :
  fetch_count token (tr ++ [EvFetch token; EvWrite text])%list
  = S (fetch_count token tr).
Proof.
  unfold fetch_count. rewrite filter_app, length_app.
  rewrite filter_cons_True by done. rewrite filter_cons_False by done.
  cbn. lia.
Qed.

Section Negative.

Variable get_compounds : string → namespace → pcp_reply.

#[local] Abbreviation run := (forward get_compounds).
#[local] Abbreviation found q := (try_namespaces get_compounds q namespaces).

(** C1, as the code has it. Two calls of [forward] in succession with the
    same arguments: the second call changes nothing and does not call the
    adapter. The two calls return the same thing when the first one found
    the record in the cache or got one from the adapter. When the first call
    missed the cache and the adapter found nothing, the first call returns
    the message [No PubChem result found for: query] and the second call
    renders the cached record of six [None] fields, which is never that
    message: the two outputs differ, for ["json"] as for every field. *)
Theorem forward_twice (st : state) (query : string) (fmt : option string) :
  wf st → strip query ≠ "" →
  let r1 := run st query fmt in
  let r2 := run r1.2 query fmt in
  r2.2 = r1.2
  ∧ trace r2.2 = trace r1.2
  ∧ (is_Some (_lookup_cache st query) ∨ is_Some (found query) → r2.1 = r1.1)
  ∧ (_lookup_cache st query = None → found query = None →
       r1.1 = Return ("No PubChem result found for: " ++ query)
       ∧ r2.1 = render negative_record query (text_or fmt "json")
       ∧ r2.1 ≠ r1.1).
Proof.
  intros Hwf Hq. cbv zeta.
  destruct (_lookup_cache st query) as [rec|] eqn:Hlook.
  { rewrite (forward_hit get_compounds st query fmt rec Hlook). cbn [fst snd].
    rewrite (forward_hit get_compounds st query fmt rec Hlook). by split_and!. }
  pose proof (forward_miss_then_hit get_compounds st query fmt Hwf Hq Hlook) as Hhit.
  rewrite (forward_hit get_compounds _ query fmt _ Hhit). cbn [fst snd].
  split_and!; [done|done| |].
  - intros [[? [=]]|[rec Hrec]].
    rewrite (forward_miss_found get_compounds st query fmt rec) by done.
    unfold upserted. by rewrite Hrec.
  - intros _ Hnone.
    rewrite (forward_miss_negative get_compounds st query fmt) by done.
    unfold upserted. rewrite Hnone. cbn [fst].
    split_and!; [done|done|]. apply render_negative_differs.
Qed.

(** C2, as the code has it. When the cache lookup misses and the adapter
    finds nothing, [forward] returns the message
    [No PubChem result found for: query] whatever the output format, and
    upserts the record of six [None] fields under the raw query. Every later
    call with that query is served from this record, changes nothing and
    calls the adapter no more, so that the adapter was called once. But what
    a later call returns is the rendering of the cached record: for ["json"]
    the JSON text of the six null fields, not a message; for a field the
    message [No value for 'field' found for: query]. *)
Theorem negative_caching (st : state) (query : string) (fmt : option string) :
  wf st → strip query ≠ "" → _lookup_cache st query = None → found query = None →
  let r1 := run st query fmt in
  r1.1 = Return ("No PubChem result found for: " ++ query)
  ∧ dict_get (_cache r1.2) query = Some negative_record
  ∧ (∀ f, rec_get negative_record f = PNone)
  ∧ (∀ fmt', run r1.2 query fmt'
             = (render negative_record query (text_or fmt' "json"), r1.2))
  ∧ (run r1.2 query (Some "json")).1 = Return (json_dumps negative_record)
  ∧ (run r1.2 query (Some "json")).1 ≠ Return ("No PubChem result found for: " ++ query)
  ∧ (∀ f, (run r1.2 query (Some (field_name f))).1
          = Return ("No value for '" ++ field_name f ++ "' found for: " ++ query))
  ∧ (∀ fmts, fold_left (fun s f => (run s query f).2) fmts r1.2 = r1.2)
  ∧ fetch_count query (trace r1.2) = S (fetch_count query (trace st)).
Proof.
  intros Hwf Hq Hmiss Hnone. cbv zeta.
  pose proof (forward_miss_then_hit get_compounds st query fmt Hwf Hq Hmiss) as Hhit.
  unfold upserted in Hhit. rewrite Hnone in Hhit.
  assert (∀ fmt', run (run st query fmt).2 query fmt'
                  = (render negative_record query (text_or fmt' "json"),
                     (run st query fmt).2)) as Hlater
    by (intros fmt'; by apply forward_hit).
  split_and!.
  - by rewrite (forward_miss_negative get_compounds st query fmt).
  - rewrite (forward_miss_negative get_compounds st query fmt) by done.
    cbn [snd]. rewrite add_to_cache_cache. apply dict_get_set.
  - by intros [].
  - exact Hlater.
  - by rewrite Hlater.
  - rewrite Hlater. apply render_negative_differs.
  - intros f. rewrite Hlater. cbn [fst].
    replace (text_or (Some (field_name f)) "json") with (field_name f) by by destruct f.
    apply render_negative_field.
  - intros fmts. induction fmts as [|f fmts IH]; [done|].
    cbn [fold_left]. by rewrite Hlater.
  - rewrite (forward_miss_negative get_compounds st query fmt) by done.
    cbn. rewrite <- app_assoc. apply fetch_count_after_miss.
Qed.

(** C3, as the code has it. An output format that is neither ["json"] nor a
    field name is rejected only when the record is rendered. On a cache hit
    the call raises the error and changes nothing. On a cache miss the
    adapter has been called, the record upserted and the file rewritten by
    then; the call then raises the error if the adapter found a record, and
    returns the message [No PubChem result found for: query], with no error
    at all, if the adapter found nothing. *)
Theorem invalid_format_is_checked_last
    (st : state) (query : string) (fmt : option string) :
  wf st → strip query ≠ "" → invalid_format fmt →
  let r := run st query fmt in
  (∀ rec, _lookup_cache st query = Some rec →
          r = (Raise (ValueError output_format_error), st))
  ∧ (_lookup_cache st query = None →
       _cache r.2 = (_cache st ++ [(query, upserted get_compounds query)])%list
       ∧ cache_file r.2 = Some (json_dump_store (_cache r.2))
       ∧ trace r.2
         = (trace st ++ [EvFetch query; EvWrite (json_dump_store (_cache r.2))])%list
       ∧ (found query = None →
          r.1 = Return ("No PubChem result found for: " ++ query))
       ∧ (∀ rec, found query = Some rec →
          r.1 = Raise (ValueError output_format_error))).
Proof.
  intros Hwf Hq Hbad. cbv zeta. split.
  - intros rec Hhit. rewrite (forward_hit get_compounds st query fmt rec Hhit).
    by rewrite render_invalid.
  - intros Hmiss.
    pose proof (lookup_miss_fresh st Hwf query Hq Hmiss) as Hfresh.
    rewrite forward_miss_state by done.
    split_and!.
    + rewrite add_to_cache_cache. by apply dict_set_fresh.
    + done.
    + cbn. by rewrite <- app_assoc.
    + intros Hnone. by rewrite (forward_miss_negative get_compounds st query fmt).
    + intros rec Hrec.
      rewrite (forward_miss_found get_compounds st query fmt rec) by done.
      by rewrite render_invalid.
Qed.

End Negative.

(** ** The failing inputs, evaluated *)

Lemma forward_twice_witness :
  let r1 := forward no_results fresh "unobtainium999" (Some "json") in
  let r2 := forward no_results r1.2 "unobtainium999" (Some "json") in
  r1.1 = Return "No PubChem result found for: unobtainium999"
  ∧ r2.1 = Return (json_dumps negative_record)
  ∧ r2.1 ≠ r1.1
  ∧ trace r2.2 = trace r1.2.
Proof.
  assert (wf fresh) as Hwf by (apply (bool_decide_unpack _); vm_compute; exact I).
  assert (strip "unobtainium999" ≠ "") as Hq by (vm_compute; discriminate).
  destruct (forward_twice no_results fresh "unobtainium999" (Some "json") Hwf Hq)
    as (_ & Htrace & _ & Hneg).
  destruct Hneg as (H1 & H2 & H3); [vm_compute; reflexivity | reflexivity |].
  cbv zeta. split_and!; [exact H1 | exact H2 | exact H3 | exact Htrace].
Defined.

Lemma negative_caching_witness :
  let r1 := forward no_results fresh "unobtainium999" (Some "cid") in
  r1.1 = Return "No PubChem result found for: unobtainium999"
  ∧ dict_get (_cache r1.2) "unobtainium999" = Some negative_record
  ∧ (forward no_results r1.2 "unobtainium999" (Some "json")).1
    = Return (json_dumps negative_record)
  ∧ (forward no_results r1.2 "unobtainium999" (Some "cid")).1
    = Return "No value for 'cid' found for: unobtainium999"
  ∧ fetch_count "unobtainium999" (trace r1.2) = 1%nat.
Proof.
  assert (wf fresh) as Hwf by (apply (bool_decide_unpack _); vm_compute; exact I).
  assert (strip "unobtainium999" ≠ "") as Hq by (vm_compute; discriminate).
  assert (_lookup_cache fresh "unobtainium999" = None) as Hmiss
    by (vm_compute; reflexivity).
  destruct (negative_caching no_results fresh "unobtainium999" (Some "cid")
              Hwf Hq Hmiss eq_refl)
    as (H1 & H2 & _ & _ & H5 & _ & H7 & _ & H9).
  cbv zeta. split_and!; [exact H1 | exact H2 | exact H5 | exact (H7 Fcid) | exact H9].
Defined.

Lemma invalid_format_is_checked_last_witness :
  let r := forward no_results fresh "unobtainium999" (Some "bogus") in
  r.1 = Return "No PubChem result found for: unobtainium999"
  ∧ _cache r.2 = [("unobtainium999", negative_record)]
  ∧ trace r.2
    = [EvWrite "{}"; EvFetch "unobtainium999"; EvWrite (json_dump_store (_cache r.2))].
Proof.
  assert (wf fresh) as Hwf by (apply (bool_decide_unpack _); vm_compute; exact I).
  assert (strip "unobtainium999" ≠ "") as Hq by (vm_compute; discriminate).
  assert (invalid_format (Some "bogus")) as Hbad
    by (split; [vm_compute; discriminate | vm_compute; reflexivity]).
  destruct (invalid_format_is_checked_last no_results fresh "unobtainium999"
              (Some "bogus") Hwf Hq Hbad) as (_ & Hmiss).
  destruct Hmiss as (Hc & _ & Ht & Hmsg & _); [vm_compute; reflexivity|].
  cbv zeta. split_and!; [exact (Hmsg eq_refl) | exact Hc | exact Ht].
Defined.

(** With a service that knows the compound, the same unknown format raises
    the error, after the record was stored and the file rewritten. *)
Example invalid_format_after_fetch :
  let r := forward water_service fresh "water" (Some "bogus") in
  r.1 = Raise (ValueError output_format_error)
  ∧ _cache r.2 = [("water", record_of_compound water)]
  ∧ fetch_count "water" (trace r.2) = 1%nat.
Proof. vm_compute. by split_and!. Qed.

(** ** Construction and the scenarios of the specification *)

Lemma init_absent (json_load : string → option store) :
  __init__ json_load None = fresh.
Proof. reflexivity. Qed.

Lemma init_corrupt (json_load : string → option store) (text : string) :
  json_load text = None →
  _cache (__init__ json_load (Some text)) = []
  ∧ cache_file (__init__ json_load (Some text)) = Some text
  ∧ trace (__init__ json_load (Some text)) = [].
Proof. intros H. unfold __init__, _load_cache. cbn. by rewrite H. Qed.

Lemma fresh_wf : wf fresh.
Proof. apply (bool_decide_unpack _). vm_compute. exact I. Qed.

(** The tables of a state that [_load_cache] or [_add_to_cache] produced are
    rebuilt tables. *)
Lemma rebuild_after_load (json_load : string → option store) (st : state) :
  _rebuild_alias_indexes (_load_cache json_load st) = _load_cache json_load st.
Proof. unfold _load_cache. by destruct (cache_file st). Qed.

Lemma rebuild_after_add (st : state) (written : string) (rec : record) :
  _rebuild_alias_indexes (_add_to_cache st written rec) = _add_to_cache st written rec.
Proof. done. Qed.

(** [resolve("water", "smiles")] on the empty store returns [O] and stores
    one entry; the inchikey then returns the formula with no new fetch. *)
Example scenario_water :
  let r1 := forward water_service fresh "water" (Some "smiles") in
  let r2 := forward water_service r1.2 "XLYOFNOQVPJJNP-UHFFFAOYSA-N" (Some "formula") in
  r1.1 = Return "O"
  ∧ keys (_cache r1.2) = ["water"]
  ∧ r2.1 = Return "H2O"
  ∧ fetch_count "XLYOFNOQVPJJNP-UHFFFAOYSA-N" (trace r2.2) = 0%nat
  ∧ r2.2 = r1.2.
Proof. vm_compute. by split_and!. Qed.

Example scenario_empty_query :
  forward water_service fresh "" (Some "json")
  = (Raise (ValueError "Query must be a non-empty string."), fresh).
Proof. reflexivity. Qed.

(** * Further properties of the tool *)

(** ** Normalisation of names *)

Lemma isspace_lower_char (c : ascii) : isspace (lower_char c) = isspace c.
Proof. by destruct c as [[] [] [] [] [] [] [] []]. Qed.

Lemma lower_char_idemp (c : ascii) : lower_char (lower_char c) = lower_char c.
Proof. by destruct c as [[] [] [] [] [] [] [] []]. Qed.

Lemma lower_idemp (s : string) : lower (lower s) = lower s.
Proof. induction s as [|c s IH]; [done|]. cbn. by rewrite lower_char_idemp, IH. Qed.

Lemma lstrip_lower (s : string) : lstrip (lower s) = lower (lstrip s).
Proof.
  induction s as [|c s IH]; [done|]. cbn. rewrite isspace_lower_char.
  by destruct (isspace c).
Qed.

Lemma rstrip_lower (s : string) : rstrip (lower s) = lower (rstrip s).
Proof.
  induction s as [|c s IH]; [done|]. cbn. rewrite IH, isspace_lower_char.
  destruct (rstrip s); [by destruct (isspace c) | done].
Qed.

Lemma strip_lower (s : string) : strip (lower s) = lower (strip s).
Proof. unfold strip. by rewrite lstrip_lower, rstrip_lower. Qed.

(** X1. [_norm_name] computes a normal form: normalising twice is
    normalising once, and the result does not depend on the case of the
    letters nor on white space around the string. *)
Theorem norm_name_normal_form (s : string) :
  _norm_name (_norm_name s) = _norm_name s
  ∧ _norm_name (lower s) = _norm_name s
  ∧ _norm_name (strip s) = _norm_name s
  ∧ strip (_norm_name s) = _norm_name s.
Proof.
  unfold _norm_name. split_and!.
  - by rewrite strip_lower, strip_idemp, lower_idemp.
  - by rewrite strip_lower, lower_idemp.
  - by rewrite strip_idemp.
  - by rewrite strip_lower, strip_idemp.
Qed.

Lemma norm_name_fixed (s : string) :
  _norm_name (_norm_name s) = _norm_name s ∧ strip (_norm_name s) = _norm_name s.
Proof.
  unfold _norm_name.
  by rewrite !strip_lower, !strip_idemp, lower_idemp.
Qed.

(** ** The fetch adapter *)

(** Reading a compound fails exactly when one of the reads raises. *)
Lemma read_compound_None (p : PcpCompound) :
  read_compound p = None ↔
  p_iupac_name p = AttrRaises
  ∨ p_inchikey p = AttrRaises
  ∨ p_isomeric_smiles p = AttrRaises
  ∨ ((p_isomeric_smiles p = AttrValue None ∨ p_isomeric_smiles p = AttrValue (Some ""))
     ∧ p_smiles p = AttrRaises)
  ∨ p_synonyms p = AttrRaises
  ∨ p_cid p = AttrRaises
  ∨ p_molecular_formula p = AttrRaises.
Proof.
  unfold read_compound.
  destruct (p_iupac_name p) as [|v1]; [by split; [left|]|].
  destruct (p_inchikey p) as [|v2]; [by split; [right; left|]|].
  destruct (p_isomeric_smiles p) as [|v3]; [by split; [right; right; left|]|].
  cbn [getattr mbind option_bind].
  assert (is_truthy v3 = false ↔ v3 = None ∨ v3 = Some "") as Hfalsy.
  { destruct v3 as [s|]; cbn; [|by split; [left|]].
    rewrite bool_decide_eq_false. split.
    - intros Hs. right. f_equal. by destruct (decide (s = "")).
    - intros [?|[= ->]]; [done | by intros ?]. }
  destruct (is_truthy v3) eqn:Hv3.
  - cbn [mbind option_bind].
    destruct (p_synonyms p) as [|v5]; [by split; [do 4 right; left|]|].
    destruct (p_cid p) as [|v6]; [by split; [do 5 right; left|]|].
    destruct (p_molecular_formula p) as [|v7]; [by split; [do 6 right|]|].
    cbn. split; [done|].
    intros [?|[?|[?|[[[[= ->]|[= ->]] _]|[?|[?|?]]]]]]; try done.
  - destruct (p_smiles p) as [|v4].
    { split; [|done]. intros _. do 3 right. left. split; [|done].
      destruct (proj1 Hfalsy eq_refl) as [-> | ->]; [by left | by right]. }
    cbn [getattr mbind option_bind].
    destruct (p_synonyms p) as [|v5]; [by split; [do 4 right; left|]|].
    destruct (p_cid p) as [|v6]; [by split; [do 5 right; left|]|].
    destruct (p_molecular_formula p) as [|v7]; [by split; [do 6 right|]|].
    cbn. split; [done|].
    intros [?|[?|[?|[[_ ?]|[?|[?|?]]]]]]; congruence.
Qed.

(** A compound that was read holds the values the reads yielded; the plain
    smiles is not read when the isomeric smiles is a non-empty string. *)
Lemma read_compound_Some (p : PcpCompound) (c : Compound) :
  read_compound p = Some c →
  p_iupac_name p = AttrValue (c_iupac_name c)
  ∧ p_inchikey p = AttrValue (c_inchikey c)
  ∧ p_isomeric_smiles p = AttrValue (c_isomeric_smiles c)
  ∧ (if is_truthy (c_isomeric_smiles c) then c_smiles c = None
     else p_smiles p = AttrValue (c_smiles c))
  ∧ p_synonyms p = AttrValue (c_synonyms c)
  ∧ p_cid p = AttrValue (c_cid c)
  ∧ p_molecular_formula p = AttrValue (c_molecular_formula c).
Proof.
  unfold read_compound.
  destruct (p_iupac_name p) as [|v1]; [done|].
  destruct (p_inchikey p) as [|v2]; [done|].
  destruct (p_isomeric_smiles p) as [|v3]; [done|].
  cbn [getattr mbind option_bind].
  destruct (is_truthy v3) eqn:Hv3.
  - cbn [mbind option_bind].
    destruct (p_synonyms p) as [|v5]; [done|].
    destruct (p_cid p) as [|v6]; [done|].
    destruct (p_molecular_formula p) as [|v7]; [done|].
    cbn. intros [= <-]. cbn. by rewrite Hv3.
  - destruct (p_smiles p) as [|v4]; [done|].
    cbn [getattr mbind option_bind].
    destruct (p_synonyms p) as [|v5]; [done|].
    destruct (p_cid p) as [|v6]; [done|].
    destruct (p_molecular_formula p) as [|v7]; [done|].
    cbn. intros [= <-]. cbn. by rewrite Hv3.
Qed.

Section Fetch.

Variable get_compounds : string → namespace → pcp_reply.

(** The service yields nothing usable for the token in this namespace: the
    call raised, it returned the empty list, or reading the first compound
    of the list raised. *)
#[local] Abbreviation nothing token ns :=
  (get_compounds token ns = PcpRaises
   ∨ get_compounds token ns = PcpCompounds []
   ∨ ∃ p rest, get_compounds token ns = PcpCompounds (p :: rest)
               ∧ read_compound p = None).

Lemma try_namespaces_None (token : string) (nss : list namespace) :
  try_namespaces get_compounds token nss = None ↔
  ∀ ns, ns ∈ nss → nothing token ns.
Proof.
  induction nss as [|ns nss IH]; cbn [try_namespaces].
  - split; [|done]. intros _ ns H. by apply elem_of_nil in H.
  - assert (nothing token ns →
            (try_namespaces get_compounds token nss = None ↔
             ∀ ns', ns' ∈ ns :: nss → nothing token ns')) as Hskip.
    { intros Hns. rewrite IH. split.
      - intros H ns' [->|Hin]%elem_of_cons; [done | by apply H].
      - intros H ns' Hin. apply H. by apply list_elem_of_further. }
    destruct (get_compounds token ns) as [|[|p rest]] eqn:E.
    + apply Hskip. by left.
    + apply Hskip. right. by left.
    + destruct (read_compound p) as [c|] eqn:Hread.
      * split; [done|]. intros H.
        destruct (H ns) as [H'|[H'|(p' & rest' & H' & Hnone)]];
          [apply list_elem_of_here | | |]; congruence.
      * apply Hskip. right; right. by exists p, rest.
Qed.

Lemma try_namespaces_first (token : string) (nss : list namespace) (rec : record) :
  try_namespaces get_compounds token nss = Some rec ↔
  ∃ before ns after p rest c,
    nss = (before ++ ns :: after)%list
    ∧ (∀ ns', ns' ∈ before → nothing token ns')
    ∧ get_compounds token ns = PcpCompounds (p :: rest)
    ∧ read_compound p = Some c
    ∧ rec = record_of_compound c.
Proof.
  revert rec. induction nss as [|ns nss IH]; intros rec; cbn [try_namespaces].
  - split; [done|]. intros (before & ns & after & p & rest & c & H & _).
    by destruct before.
  - assert (nothing token ns →
            (try_namespaces get_compounds token nss = Some rec ↔
             ∃ before ns' after p rest c,
               ns :: nss = (before ++ ns' :: after)%list
               ∧ (∀ x, x ∈ before → nothing token x)
               ∧ get_compounds token ns' = PcpCompounds (p :: rest)
               ∧ read_compound p = Some c
               ∧ rec = record_of_compound c)) as Hskip.
    { intros Hns. rewrite IH. split.
      - intros (before & ns' & after & p & rest & c & -> & Hb & Hns' & Hread & ->).
        exists (ns :: before), ns', after, p, rest, c. split_and!; try done.
        intros x [->|Hin]%elem_of_cons; [done | by apply Hb].
      - intros (before & ns' & after & p & rest & c & Heq & Hb & Hns' & Hread & ->).
        destruct before as [|b before]; cbn in Heq; injection Heq as <- ->.
        + destruct Hns as [H|[H|(p' & rest' & H & Hnone)]]; congruence.
        + exists before, ns', after, p, rest, c. split_and!; try done.
          intros x Hin. apply Hb. by apply list_elem_of_further. }
    destruct (get_compounds token ns) as [|[|p rest]] eqn:E.
    + apply Hskip. by left.
    + apply Hskip. right. by left.
    + destruct (read_compound p) as [c|] eqn:Hread.
      * split.
        -- intros [= <-]. exists [], ns, nss, p, rest, c. split_and!; try done.
           intros x H. by apply elem_of_nil in H.
        -- intros (before & ns' & after & p' & rest' & c' & Heq & Hb & Hns' & Hread' & ->).
           destruct before as [|b before]; cbn in Heq; injection Heq as <- ->.
           ++ congruence.
           ++ destruct (Hb ns) as [H|[H|(p'' & rest'' & H & Hnone)]];
                [apply list_elem_of_here | | |]; congruence.
      * apply Hskip. right; right. by exists p, rest.
Qed.

(** X2. [_fetch_from_pubchem] tries the namespaces inchikey, smiles,
    formula, name, cid in this order. A namespace yields nothing when the
    call of the service raises, when it returns the empty list, or when a
    read of an attribute of the first compound raises while the record is
    built (the plain smiles is read only if the isomeric smiles is empty or
    [None]); all three are skipped alike. The result is nothing exactly when
    every namespace yields nothing, and otherwise the record made from the
    first compound of the first namespace that yields one. The call touches
    neither the cache, the tables nor the file. *)
Theorem fetch_first_namespace_wins (st : state) (token : string) :
  let r := _fetch_from_pubchem get_compounds st token in
  (r.1 = None ↔ ∀ ns, nothing token ns)
  ∧ (∀ rec, r.1 = Some rec ↔
       ∃ before ns after p rest c,
         [NsInchikey; NsSmiles; NsFormula; NsName; NsCid] = (before ++ ns :: after)%list
         ∧ (∀ ns', ns' ∈ before → nothing token ns')
         ∧ get_compounds token ns = PcpCompounds (p :: rest)
         ∧ read_compound p = Some c
         ∧ rec = record_of_compound c)
  ∧ (∀ p, read_compound p = None ↔
       p_iupac_name p = AttrRaises
       ∨ p_inchikey p = AttrRaises
       ∨ p_isomeric_smiles p = AttrRaises
       ∨ ((p_isomeric_smiles p = AttrValue None
           ∨ p_isomeric_smiles p = AttrValue (Some ""))
          ∧ p_smiles p = AttrRaises)
       ∨ p_synonyms p = AttrRaises
       ∨ p_cid p = AttrRaises
       ∨ p_molecular_formula p = AttrRaises)
  ∧ _cache r.2 = _cache st
  ∧ _alias_cs r.2 = _alias_cs st
  ∧ _alias_ci r.2 = _alias_ci st
  ∧ cache_file r.2 = cache_file st
  ∧ trace r.2 = (trace st ++ [EvFetch token])%list.
Proof.
  cbv zeta. cbn [_fetch_from_pubchem fst snd _cache _alias_cs _alias_ci cache_file trace].
  split_and!; try done.
  - rewrite try_namespaces_None. split.
    + intros H ns. apply H.
      destruct ns; unfold namespaces;
        repeat first [apply list_elem_of_here | apply list_elem_of_further].
    + intros H ns _. apply H.
  - intros rec. apply try_namespaces_first.
  - apply read_compound_None.
Qed.

End Fetch.

Lemma fetch_first_namespace_wins_witness :
  (_fetch_from_pubchem flaky_service fresh "H2O").1 = Some (record_of_compound water)
  ∧ flaky_service "H2O" NsFormula = PcpCompounds [water_without_synonyms]
  ∧ read_compound water_without_synonyms = None.
Proof.
  destruct (fetch_first_namespace_wins flaky_service fresh "H2O") as (_ & Hsome & Hread & _).
  assert (read_compound water_without_synonyms = None) as Hnone.
  { apply Hread. do 4 right. left. reflexivity. }
  split_and!; [|reflexivity|exact Hnone].
  apply Hsome.
  exists [NsInchikey; NsSmiles; NsFormula], NsName, [NsCid], (readable water), [], water.
  split_and!; [reflexivity| |reflexivity|reflexivity|reflexivity].
  intros ns Hin.
  repeat (apply elem_of_cons in Hin as [->|Hin]).
  - right. by left.
  - right. by left.
  - right. right. by exists water_without_synonyms, [].
  - by apply elem_of_nil in Hin.
Defined.

(** ** What [forward] returns and when it raises *)

Lemma render_valid (rec : record) (query : string) (fmt : option string) :
  ¬ invalid_format fmt → ∃ s, render rec query (text_or fmt "json") = Return s.
Proof.
  intros Hok. unfold render. case_decide as Hj; [by eexists|].
  destruct (field_of_name (text_or fmt "json")) as [f|] eqn:Hf.
  - destruct (rec_get rec f) as [|[|c s]|z]; by eexists.
  - by destruct Hok.
Qed.

Lemma render_nonempty (rec : record) (query output_format s : string) :
  render rec query output_format = Return s → s ≠ "".
Proof.
  unfold render. case_decide as Hj; [by intros [= <-]|].
  destruct (field_of_name output_format) as [f|]; [|done].
  destruct (rec_get rec f) as [|[|c s']|z]; intros [= <-]; try done.
  apply pretty_Z_plain.
Qed.

Lemma render_field (rec : record) (query : string) (f : field) :
  (rec_get rec f = PNone ∨ rec_get rec f = PStr "" →
   render rec query (field_name f)
   = Return ("No value for '" ++ field_name f ++ "' found for: " ++ query))
  ∧ (∀ s, rec_get rec f = PStr s → s ≠ "" → render rec query (field_name f) = Return s)
  ∧ (∀ z, rec_get rec f = PInt z → render rec query (field_name f) = Return (pretty z)).
Proof.
  assert (render rec query (field_name f)
          = match rec_get rec f with
            | PNone | PStr "" =>
                Return ("No value for '" ++ field_name f ++ "' found for: " ++ query)
            | value => Return (py_str value)
            end) as -> by by destruct f.
  split_and!.
  - by intros [-> | ->].
  - intros s -> Hs. by destruct s.
  - by intros z ->.
Qed.

Section Outcomes.

Variable get_compounds : string → namespace → pcp_reply.

#[local] Abbreviation run := (forward get_compounds).
#[local] Abbreviation found q := (try_namespaces get_compounds q namespaces).

(** X3. The errors of [forward], all of them. A blank query raises the
    query error. A query that is not blank raises the format error exactly
    when the output format is neither ["json"] nor a field name and there is
    a record to render, from the cache or from the adapter. Every other call
    returns a string. *)
Theorem forward_errors (st : state) (query : string) (fmt : option string) :
  let out := (run st query fmt).1 in
  let has_record := is_Some (_lookup_cache st query) ∨ is_Some (found query) in
  (strip query = "" → out = Raise (ValueError "Query must be a non-empty string."))
  ∧ (strip query ≠ "" → invalid_format fmt → has_record →
     out = Raise (ValueError output_format_error))
  ∧ (strip query ≠ "" → ¬ (invalid_format fmt ∧ has_record) → ∃ s, out = Return s).
Proof.
  cbv zeta. split_and!.
  - intros Hq. by rewrite forward_blank.
  - intros Hq Hbad Hrec.
    destruct (_lookup_cache st query) as [rec|] eqn:Hlook.
    { rewrite (forward_hit get_compounds st query fmt rec Hlook).
      by apply render_invalid. }
    destruct Hrec as [[? [=]]|[rec Hrec]].
    rewrite (forward_miss_found get_compounds st query fmt rec) by done.
    by apply render_invalid.
  - intros Hq Hok.
    destruct (_lookup_cache st query) as [rec|] eqn:Hlook.
    { rewrite (forward_hit get_compounds st query fmt rec Hlook).
      apply render_valid. intros Hbad. apply Hok. split; [done|]. left. by eexists. }
    destruct (found query) as [rec|] eqn:Hrec.
    + rewrite (forward_miss_found get_compounds st query fmt rec) by done.
      apply render_valid. intros Hbad. apply Hok. split; [done|]. right. by eexists.
    + rewrite (forward_miss_negative get_compounds st query fmt) by done.
      by eexists.
Qed.

(** X4. What [forward] returns. It never returns the empty string. For a
    query without a record, in the cache or from the adapter, it returns the
    message [No PubChem result found for: query]. For a record and the
    format ["json"] it returns the serialised record. For a record and a
    field it returns the message [No value for 'field' found for: query]
    when the field is [None] or the empty string, the field itself when it
    is a non-empty string, and the decimal digits when it is a number. *)
Theorem forward_output_nonempty
    (st : state) (query : string) (fmt : option string) :
  let out := (run st query fmt).1 in
  (∀ s, out = Return s → s ≠ "")
  ∧ (strip query ≠ "" → _lookup_cache st query = None → found query = None →
     out = Return ("No PubChem result found for: " ++ query))
  ∧ (∀ rec, strip query ≠ "" →
       _lookup_cache st query = Some rec
       ∨ (_lookup_cache st query = None ∧ found query = Some rec) →
       (text_or fmt "json" = "json" → out = Return (json_dumps rec))
       ∧ (∀ f, text_or fmt "json" = field_name f →
            (rec_get rec f = PNone ∨ rec_get rec f = PStr "" →
             out = Return ("No value for '" ++ field_name f ++ "' found for: " ++ query))
            ∧ (∀ s, rec_get rec f = PStr s → s ≠ "" → out = Return s)
            ∧ (∀ z, rec_get rec f = PInt z → out = Return (pretty z)))).
Proof.
  cbv zeta. split_and!.
  - intros s.
    destruct (decide (strip query = "")) as [Hq|Hq].
    { by rewrite forward_blank. }
    destruct (_lookup_cache st query) as [rec|] eqn:Hlook.
    { rewrite (forward_hit get_compounds st query fmt rec Hlook).
      apply render_nonempty. }
    destruct (found query) as [rec|] eqn:Hrec.
    + rewrite (forward_miss_found get_compounds st query fmt rec) by done.
      apply render_nonempty.
    + rewrite (forward_miss_negative get_compounds st query fmt) by done.
      by intros [= <-].
  - intros Hq Hmiss Hnone.
    by rewrite (forward_miss_negative get_compounds st query fmt).
  - intros rec Hq Hrec.
    assert ((run st query fmt).1 = render rec query (text_or fmt "json")) as ->.
    { destruct Hrec as [Hhit|[Hmiss Hfound]].
      - by rewrite (forward_hit get_compounds st query fmt rec Hhit).
      - by rewrite (forward_miss_found get_compounds st query fmt rec). }
    split.
    + intros ->. unfold render. by rewrite decide_True.
    + intros f ->. apply render_field.
Qed.

End Outcomes.

Lemma forward_errors_witness :
  (forward water_service fresh "   " (Some "smiles")).1
  = Raise (ValueError "Query must be a non-empty string.")
  ∧ (forward water_service fresh "water" (Some "SMILES")).1
    = Raise (ValueError output_format_error)
  ∧ ∃ s, (forward water_service fresh "ice" (Some "SMILES")).1 = Return s.
Proof.
  destruct (forward_errors water_service fresh "   " (Some "smiles")) as (H1 & _).
  destruct (forward_errors water_service fresh "water" (Some "SMILES")) as (_ & H2 & _).
  destruct (forward_errors water_service fresh "ice" (Some "SMILES")) as (_ & _ & H3).
  split_and!.
  - apply H1. reflexivity.
  - apply H2.
    + vm_compute. discriminate.
    + split; [vm_compute; discriminate | vm_compute; reflexivity].
    + right. vm_compute. by eexists.
  - apply H3.
    + vm_compute. discriminate.
    + intros [_ [[r Hr]|[r Hr]]]; vm_compute in Hr; discriminate Hr.
Defined.

Lemma forward_output_nonempty_witness :
  (forward water_service with_water " Water " (Some "cid")).1 = Return "962"
  ∧ (forward water_service with_water " Water " (Some "smiles")).1 = Return "O"
  ∧ (forward water_service with_water "ice" (Some "smiles")).1
    = Return "No PubChem result found for: ice".
Proof.
  assert (_lookup_cache with_water " Water " = Some (record_of_compound water)) as Hhit
    by (vm_compute; reflexivity).
  assert (strip " Water " ≠ "") as Hq by (vm_compute; discriminate).
  split_and!.
  - destruct (forward_output_nonempty water_service with_water " Water " (Some "cid"))
      as (_ & _ & H).
    destruct (H (record_of_compound water) Hq (or_introl Hhit)) as [_ Hf].
    destruct (Hf Fcid eq_refl) as (_ & _ & Hz). by apply (Hz 962).
  - destruct (forward_output_nonempty water_service with_water " Water " (Some "smiles"))
      as (_ & _ & H).
    destruct (H (record_of_compound water) Hq (or_introl Hhit)) as [_ Hf].
    destruct (Hf Fsmiles eq_refl) as (_ & Hs & _). by apply (Hs "O").
  - destruct (forward_output_nonempty water_service with_water "ice" (Some "smiles"))
      as (_ & H & _).
    apply H; [vm_compute; discriminate | vm_compute; reflexivity | vm_compute; reflexivity].
Defined.

(** ** The effect of an upsert on later lookups *)

Lemma dict_get_app_l (d d' : store) (k : string) (v : record) :
  dict_get d k = Some v → dict_get (d ++ d')%list k = Some v.
Proof.
  induction d as [|[k' v'] d IH]; [done|]. cbn.
  by destruct (decide (k' = k)).
Qed.

Lemma dict_get_app_ne (d : store) (k q : string) (v : record) :
  k ≠ q → dict_get (d ++ [(q, v)])%list k = dict_get d k.
Proof.
  intros Hne. induction d as [|[k' v'] d IH]; cbn.
  - by rewrite decide_False.
  - by destruct (decide (k' = k)).
Qed.

Lemma structure_alias_stripped (v : record) (a : string) :
  a ∈ structure_aliases v → a ≠ "" ∧ strip a = a.
Proof.
  unfold structure_aliases. intros [Ha Hin]%truthy_elem. split; [done|].
  repeat (apply elem_of_cons in Hin as [->|Hin]); try apply strip_idemp.
  - unfold cid_str in *. destruct (cid v) as [|[|c s]|z]; try done; apply strip_idemp.
  - by apply elem_of_nil in Hin.
Qed.

Lemma name_alias_nonblank (written : string) (v : record) (a : string) :
  strip written ≠ "" → a ∈ name_aliases written v → strip a ≠ "".
Proof.
  intros Hw. unfold name_aliases. intros [Ha Hin]%truthy_elem.
  repeat (apply elem_of_cons in Hin as [->|Hin]); try done.
  - by rewrite strip_idemp.
  - by rewrite strip_idemp.
  - by apply elem_of_nil in Hin.
Qed.

Section Append.

(** Two well-formed states, the second with one more entry at the end. *)
Variables (st st' : state) (q : string) (rec : record).
Hypothesis Hwf : wf st.
Hypothesis Hwf' : wf st'.
Hypothesis Hc : _cache st' = (_cache st ++ [(q, rec)])%list.

Lemma cs_after_append (k : string) :
  _alias_cs st' !! k
  = if decide (k ∈ structure_aliases rec) then Some q else _alias_cs st !! k.
Proof.
  rewrite (wf_cs st' Hwf'), (wf_cs st Hwf), Hc, last_claim_app.
  cbn [last_claim]. unfold cs_claims. by destruct (decide (k ∈ structure_aliases rec)).
Qed.

Lemma ci_after_append (k : string) :
  _alias_ci st' !! k
  = if decide (k ∈ ci_claims q rec) then Some q else _alias_ci st !! k.
Proof.
  rewrite (wf_ci st' Hwf'), (wf_ci st Hwf), Hc, last_claim_app.
  cbn [last_claim]. by destruct (decide (k ∈ ci_claims q rec)).
Qed.

Lemma get_after_append : dict_get (_cache st') q = Some rec.
Proof.
  apply dict_get_NoDup; [by destruct Hwf'|].
  rewrite Hc. apply elem_of_app. right. apply list_elem_of_here.
Qed.

Lemma nonblank_after_append : strip q ≠ "".
Proof.
  apply (wf_key_nonblank st' Hwf'). apply (entry_key _ q rec).
  rewrite Hc. apply elem_of_app. right. apply list_elem_of_here.
Qed.

(** A query that the new entry claims in the case-sensitive table finds the
    new record. *)
Lemma lookup_claimed_cs (a : string) :
  a ∈ structure_aliases rec → _lookup_cache st' a = Some rec.
Proof.
  intros Ha. destruct (structure_alias_stripped rec a Ha) as [Hne Hs].
  rewrite lookup_cache_nonblank by (done || by rewrite Hs).
  unfold lookup_spec. rewrite Hs, cs_after_append, decide_True by done.
  apply get_after_append.
Qed.

(** So does a query that the new entry claims as a name, unless the
    case-sensitive table has the query. *)
Lemma lookup_claimed_ci (a : string) :
  strip a ≠ "" → _norm_name a ∈ ci_claims q rec →
  _alias_cs st' !! strip a = None → _lookup_cache st' a = Some rec.
Proof.
  intros Ha Hclaim Hcs. rewrite lookup_cache_nonblank by done.
  unfold lookup_spec. rewrite Hcs.
  change (lower (strip a)) with (_norm_name a).
  rewrite ci_after_append, decide_True by done.
  apply get_after_append.
Qed.

(** A query that the new entry does not claim keeps its answer. *)
Lemma lookup_unclaimed (q0 : string) :
  strip q0 ∉ structure_aliases rec → _norm_name q0 ∉ ci_claims q rec →
  _lookup_cache st' q0 = _lookup_cache st q0.
Proof.
  intros Hcs Hci.
  destruct (decide (strip q0 = "")) as [Hq0|Hq0].
  { unfold _lookup_cache. by rewrite !decide_True. }
  rewrite !lookup_cache_nonblank by done. unfold lookup_spec.
  rewrite cs_after_append, decide_False by done.
  change (lower (strip q0)) with (_norm_name q0).
  rewrite ci_after_append, decide_False by done.
  destruct (_alias_cs st !! strip q0) as [w|] eqn:Ecs.
  { destruct (wf_alias_target st Hwf (strip q0) w) as (_ & v & Hv); [by left|].
    rewrite Hc, Hv. by apply dict_get_app_l. }
  destruct (_alias_ci st !! _norm_name q0) as [w|] eqn:Eci.
  { destruct (wf_alias_target st Hwf (_norm_name q0) w) as (_ & v & Hv); [by right|].
    rewrite Hc, Hv. by apply dict_get_app_l. }
  rewrite Hc. apply dict_get_app_ne. intros Heq. apply Hci.
  rewrite <- norm_name_strip, Heq. apply ci_claims_written.
  apply strip_nonempty, nonblank_after_append.
Qed.

(** A query that hit before the append still hits. *)
Lemma lookup_still_hits (q0 : string) :
  is_Some (_lookup_cache st q0) → is_Some (_lookup_cache st' q0).
Proof.
  intros [r Hr].
  destruct (decide (strip q0 = "")) as [Hq0|Hq0].
  { unfold _lookup_cache in Hr. by rewrite decide_True in Hr. }
  rewrite lookup_cache_nonblank in Hr by done.
  rewrite lookup_cache_nonblank by done. unfold lookup_spec in *.
  destruct (_alias_cs st' !! strip q0) as [w|] eqn:Ecs'.
  { destruct (wf_alias_target st' Hwf' (strip q0) w) as (_ & v & Hv); [by left|].
    by eexists. }
  destruct (_alias_ci st' !! lower (strip q0)) as [w|] eqn:Eci'.
  { destruct (wf_alias_target st' Hwf' (lower (strip q0)) w) as (_ & v & Hv); [by right|].
    by eexists. }
  rewrite cs_after_append in Ecs'. rewrite ci_after_append in Eci'.
  destruct (decide (strip q0 ∈ structure_aliases rec)); [done|].
  destruct (decide (lower (strip q0) ∈ ci_claims q rec)); [done|].
  rewrite Ecs', Eci' in Hr. exists r. rewrite Hc. by apply dict_get_app_l.
Qed.

End Append.

Lemma lookup_cache_strip (st : state) (query : string) :
  _lookup_cache st (strip query) = _lookup_cache st query.
Proof. unfold _lookup_cache. by rewrite !strip_idemp. Qed.

Section Upsert.

Variable get_compounds : string → namespace → pcp_reply.

#[local] Abbreviation run := (forward get_compounds).
#[local] Abbreviation found q := (try_namespaces get_compounds q namespaces).
#[local] Abbreviation ups := (upserted get_compounds).

(** What a call that misses does to the state. *)
Lemma miss_step (st : state) (query : string) (fmt : option string) :
  wf st → strip query ≠ "" → _lookup_cache st query = None →
  wf (run st query fmt).2
  ∧ _cache (run st query fmt).2 = (_cache st ++ [(query, ups query)])%list
  ∧ cache_file (run st query fmt).2 = Some (json_dump_store (_cache (run st query fmt).2))
  ∧ trace (run st query fmt).2
    = (trace st ++ [EvFetch query;
                    EvWrite (json_dump_store (_cache (run st query fmt).2))])%list.
Proof.
  intros Hwf Hq Hmiss. split; [by apply forward_wf|].
  rewrite forward_miss_state by done. split_and!.
  - rewrite add_to_cache_cache. apply dict_set_fresh. by apply lookup_miss_fresh.
  - done.
  - cbn. by rewrite <- app_assoc.
Qed.

(** X5. After a call that missed the cache, the new record is found by
    every query that is, after trimming, the trimmed content of one of its
    own structure fields: its inchikey, its smiles, its formula, its cid as a
    string or in decimal digits; whichever entries had the same content
    before, the last entry wins. It is found by every query that is, after
    trimming and lowering, one of its names (the raw query it was stored
    under, its iupac name, its common name), unless the case-sensitive table
    has the trimmed query. *)
Theorem new_record_reachable (st : state) (query : string) (fmt : option string) :
  wf st → strip query ≠ "" → _lookup_cache st query = None →
  let st' := (run st query fmt).2 in
  (∀ a, from_structure_field (ups query) (strip a) →
        _lookup_cache st' a = Some (ups query))
  ∧ (∀ a, from_name_field query (ups query) (lower (strip a)) →
        _alias_cs st' !! strip a = None →
        _lookup_cache st' a = Some (ups query)).
Proof.
  intros Hwf Hq Hmiss. cbv zeta.
  destruct (miss_step st query fmt Hwf Hq Hmiss) as (Hwf' & Hc & _).
  split.
  - intros a Ha%structure_aliases_fields. rewrite <- lookup_cache_strip.
    exact (lookup_claimed_cs st _ query (ups query) Hwf Hwf' Hc (strip a) Ha).
  - intros a Ha%name_aliases_fields Hcs.
    apply (lookup_claimed_ci st _ query (ups query) Hwf Hwf' Hc a); [|done|done].
    intros Hblank. apply (ci_claims_nonempty query _ (ups query) Hq Ha).
    by rewrite Hblank.
Qed.

(** X6. An upsert changes the answer of no query but those the new entry
    claims: a query whose trimmed form is no structure alias of the new
    record and whose normal form is none of its names gets from the cache
    lookup what it got before. When the adapter found nothing, the new entry
    claims its own name only, so that every query with another normal form
    is left alone. *)
Theorem upsert_leaves_other_queries
    (st : state) (query : string) (fmt : option string) (q0 : string) :
  wf st → strip query ≠ "" → _lookup_cache st query = None →
  let st' := (run st query fmt).2 in
  (strip q0 ∉ structure_aliases (ups query) →
   _norm_name q0 ∉ ci_claims query (ups query) →
   _lookup_cache st' q0 = _lookup_cache st q0)
  ∧ (found query = None → _norm_name q0 ≠ _norm_name query →
     _lookup_cache st' q0 = _lookup_cache st q0).
Proof.
  intros Hwf Hq Hmiss. cbv zeta.
  destruct (miss_step st query fmt Hwf Hq Hmiss) as (Hwf' & Hc & _).
  split.
  - intros Hcs Hci. exact (lookup_unclaimed st _ query (ups query) Hwf Hwf' Hc q0 Hcs Hci).
  - intros Hnone Hne. apply (lookup_unclaimed st _ query (ups query) Hwf Hwf' Hc q0).
    + unfold upserted. rewrite Hnone. apply not_elem_of_nil.
    + unfold upserted. rewrite Hnone. unfold ci_claims, name_aliases.
      intros (a & Ha & [Hne' Hin]%truthy_elem)%list_elem_of_fmap.
      repeat (apply elem_of_cons in Hin as [->|Hin]); try done.
      by apply elem_of_nil in Hin.
Qed.

(** X7. [forward] never deletes and never overwrites: in a well-formed
    state every entry of the cache is still there after the call, with the
    same record and at the same place, and a query that the cache lookup
    found before is still found after (by a later record, if that one claims
    the query). *)
Theorem forward_keeps_entries (st : state) (query : string) (fmt : option string) :
  wf st →
  let st' := (run st query fmt).2 in
  (∃ new, _cache st' = (_cache st ++ new)%list)
  ∧ (∀ k v, dict_get (_cache st) k = Some v → dict_get (_cache st') k = Some v)
  ∧ (∀ q0, is_Some (_lookup_cache st q0) → is_Some (_lookup_cache st' q0)).
Proof.
  intros Hwf. cbv zeta.
  destruct (decide (strip query = "")) as [Hq|Hq].
  { rewrite forward_blank by done. split_and!; [|done|done].
    exists []. by rewrite app_nil_r. }
  destruct (_lookup_cache st query) as [rec|] eqn:Hlook.
  { rewrite (forward_hit get_compounds st query fmt rec Hlook). split_and!; [|done|done].
    exists []. by rewrite app_nil_r. }
  destruct (miss_step st query fmt Hwf Hq Hlook) as (Hwf' & Hc & _).
  split_and!.
  - by eexists.
  - intros k v Hk. rewrite Hc. by apply dict_get_app_l.
  - intros q0. exact (lookup_still_hits st _ query (ups query) Hwf Hwf' Hc q0).
Qed.

End Upsert.

Lemma new_record_reachable_witness :
  _lookup_cache with_water "XLYOFNOQVPJJNP-UHFFFAOYSA-N" = Some (record_of_compound water)
  ∧ _lookup_cache with_water " O " = Some (record_of_compound water)
  ∧ _lookup_cache with_water "H2O" = Some (record_of_compound water)
  ∧ _lookup_cache with_water "962" = Some (record_of_compound water)
  ∧ _lookup_cache with_water " WATER" = Some (record_of_compound water)
  ∧ _lookup_cache with_water "Oxidane" = Some (record_of_compound water).
Proof.
  assert (wf fresh) as Hwf by (apply (bool_decide_unpack _); vm_compute; exact I).
  assert (strip "water" ≠ "") as Hq by (vm_compute; discriminate).
  assert (_lookup_cache fresh "water" = None) as Hmiss by (vm_compute; reflexivity).
  destruct (new_record_reachable water_service fresh "water" (Some "smiles") Hwf Hq Hmiss)
    as [Hcs Hci].
  split_and!.
  - apply Hcs. left. exists "XLYOFNOQVPJJNP-UHFFFAOYSA-N".
    split_and!; [reflexivity | vm_compute; discriminate | reflexivity].
  - apply Hcs. right; left. exists "O".
    split_and!; [reflexivity | vm_compute; discriminate | reflexivity].
  - apply Hcs. right; right; left. exists "H2O".
    split_and!; [reflexivity | vm_compute; discriminate | reflexivity].
  - apply Hcs. right; right; right; right. exists 962. split; reflexivity.
  - apply Hci; [|vm_compute; reflexivity].
    left. split; [discriminate | reflexivity].
  - apply Hci; [|vm_compute; reflexivity].
    right; left. exists "oxidane". split; [|reflexivity].
    exists "oxidane". split_and!; [reflexivity | vm_compute; discriminate | reflexivity].
Defined.

Lemma upsert_leaves_other_queries_witness :
  _lookup_cache (forward water_service with_water "ice" None).2 " Water "
  = _lookup_cache with_water " Water ".
Proof.
  assert (wf with_water) as Hwf by (apply (bool_decide_unpack _); vm_compute; exact I).
  assert (strip "ice" ≠ "") as Hq by (vm_compute; discriminate).
  assert (_lookup_cache with_water "ice" = None) as Hmiss by (vm_compute; reflexivity).
  destruct (upsert_leaves_other_queries water_service with_water "ice" None " Water "
              Hwf Hq Hmiss) as [_ H].
  apply H; [reflexivity|]. vm_compute. discriminate.
Defined.

Lemma forward_keeps_entries_witness :
  dict_get (_cache (forward water_service with_water "ice" None).2) "water"
  = Some (record_of_compound water).
Proof.
  assert (wf with_water) as Hwf by (apply (bool_decide_unpack _); vm_compute; exact I).
  destruct (forward_keeps_entries water_service with_water "ice" None Hwf) as (_ & H & _).
  apply H. vm_compute. reflexivity.
Defined.

(** ** Runs of calls *)

Lemma fetch_count_step (q q' : string) (tr : list event) (text : string) :
  fetch_count q (tr ++ [EvFetch q'; EvWrite text])%list
  = if decide (q = q') then S (fetch_count q tr) else fetch_count q tr.
Proof.
  case_decide as Hq.
  - subst. apply fetch_count_after_miss.
  - unfold fetch_count. rewrite filter_app, length_app.
    rewrite filter_cons_False by congruence. rewrite filter_cons_False by done.
    cbn. lia.
Qed.

Lemma fetched_tokens_step (q : string) (tr : list event) (text : string) :
  fetched_tokens (tr ++ [EvFetch q; EvWrite text])%list
  = (fetched_tokens tr ++ [q])%list.
Proof. unfold fetched_tokens. by rewrite omap_app. Qed.

Lemma keys_app (d : store) (q : string) (rec : record) :
  keys (d ++ [(q, rec)])%list = (keys d ++ [q])%list.
Proof. unfold keys. by rewrite fmap_app. Qed.

Section Runs.

Variable get_compounds : string → namespace → pcp_reply.

#[local] Abbreviation run := (forward get_compounds).
#[local] Abbreviation runs := (run_calls get_compounds).

(** One call either leaves the state alone, or it is a miss. *)
Lemma forward_step_cases (st : state) (query : string) (fmt : option string) :
  (run st query fmt).2 = st
  ∨ (strip query ≠ "" ∧ _lookup_cache st query = None).
Proof.
  destruct (decide (strip query = "")) as [Hq|Hq].
  { left. by rewrite forward_blank. }
  destruct (_lookup_cache st query) as [rec|] eqn:Hlook.
  { left. by rewrite (forward_hit get_compounds st query fmt rec Hlook). }
  by right.
Qed.

Lemma run_calls_wf (st : state) (calls : list (string * option string)) :
  wf st → wf (runs st calls).
Proof.
  revert st. induction calls as [|[q f] calls IH]; intros st Hwf; [done|].
  apply IH. by apply forward_wf.
Qed.

(** A written key of the cache is not fetched again, whatever calls follow. *)
Lemma cached_never_fetched (st : state) (calls : list (string * option string))
    (q : string) :
  wf st → q ∈ keys (_cache st) →
  fetch_count q (trace (runs st calls)) = fetch_count q (trace st).
Proof.
  revert st. induction calls as [|[q' f] calls IH]; intros st Hwf Hin; [done|].
  cbn [run_calls fold_left fst snd].
  destruct (forward_step_cases st q' f) as [->|[Hq' Hmiss]]; [by apply IH|].
  destruct (miss_step get_compounds st q' f Hwf Hq' Hmiss) as (Hwf' & Hc & _ & Ht).
  change (fold_left _ calls ?s) with (runs s calls).
  rewrite IH; [|done|].
  - rewrite Ht, fetch_count_step, decide_False; [done|].
    intros ->. by apply (lookup_miss_fresh st Hwf q').
  - rewrite Hc, keys_app. apply elem_of_app. by left.
Qed.

(** X8. Over any sequence of calls on a well-formed instance, the adapter
    is called at most once more with any given token, and never again with a
    token that is a written key of the cache: each query string costs at most
    one remote lookup in the life of the instance. *)
Theorem adapter_called_at_most_once
    (st : state) (calls : list (string * option string)) (q : string) :
  wf st →
  (fetch_count q (trace (runs st calls)) ≤ S (fetch_count q (trace st)))%nat
  ∧ (q ∈ keys (_cache st) →
     fetch_count q (trace (runs st calls)) = fetch_count q (trace st)).
Proof.
  intros Hwf. split; [|by apply cached_never_fetched].
  revert st Hwf. induction calls as [|[q' f] calls IH]; intros st Hwf; [cbn; lia|].
  cbn [run_calls fold_left fst snd].
  change (fold_left _ calls ?s) with (runs s calls).
  destruct (forward_step_cases st q' f) as [->|[Hq' Hmiss]]; [by apply IH|].
  destruct (miss_step get_compounds st q' f Hwf Hq' Hmiss) as (Hwf' & Hc & _ & Ht).
  destruct (decide (q = q')) as [->|Hne].
  - rewrite cached_never_fetched; [|done|].
    + rewrite Ht, fetch_count_step, decide_True by done. lia.
    + rewrite Hc, keys_app. apply elem_of_app. right. apply list_elem_of_here.
  - etrans; [by apply IH|].
    rewrite Ht, fetch_count_step, decide_False by done. lia.
Qed.

(** The written keys follow the adapter calls. *)
Lemma keys_follow_fetches (st : state) (calls : list (string * option string)) :
  wf st → keys (_cache st) = fetched_tokens (trace st) →
  keys (_cache (runs st calls)) = fetched_tokens (trace (runs st calls)).
Proof.
  revert st. induction calls as [|[q f] calls IH]; intros st Hwf Hk; [done|].
  cbn [run_calls fold_left fst snd].
  change (fold_left _ calls ?s) with (runs s calls).
  destruct (forward_step_cases st q f) as [->|[Hq Hmiss]]; [by apply IH|].
  destruct (miss_step get_compounds st q f Hwf Hq Hmiss) as (Hwf' & Hc & _ & Ht).
  apply IH; [done|].
  by rewrite Hc, Ht, keys_app, fetched_tokens_step, Hk.
Qed.

(** X9. On an instance started without a cache file, after any sequence of
    calls, the written keys of the cache are the tokens the adapter was
    called with, in the order of the calls: one entry per remote lookup,
    stored under the raw query, found or not. *)
Theorem store_keys_are_fetched_tokens
    (json_load : string → option store) (calls : list (string * option string)) :
  let st := runs (__init__ json_load None) calls in
  keys (_cache st) = fetched_tokens (trace st).
Proof.
  cbv zeta. apply keys_follow_fetches; [|done].
  rewrite init_absent. apply fresh_wf.
Qed.

(** The normal forms of the written keys stay distinct. *)
Lemma norm_keys_step (st : state) (query : string) (fmt : option string) :
  wf st → NoDup (_norm_name <$> keys (_cache st)) →
  NoDup (_norm_name <$> keys (_cache (run st query fmt).2)).
Proof.
  intros Hwf Hnd.
  destruct (forward_step_cases st query fmt) as [->|[Hq Hmiss]]; [done|].
  destruct (miss_step get_compounds st query fmt Hwf Hq Hmiss) as (_ & Hc & _).
  rewrite Hc, keys_app, fmap_app. apply NoDup_app. split_and!; [done| |apply NoDup_singleton].
  intros k (w & -> & [v Hin]%key_entry)%list_elem_of_fmap Hk.
  apply list_elem_of_singleton in Hk.
  destruct (lookup_miss_inv st Hwf query Hq Hmiss) as (_ & Hci & _).
  rewrite (wf_ci st Hwf) in Hci.
  apply (proj1 (last_claim_None ci_claims _ _) Hci w v Hin).
  rewrite <- Hk. apply ci_claims_written.
  apply strip_nonempty, (wf_key_nonblank st Hwf), (entry_key _ w v Hin).
Qed.

(** X10. The states an instance reaches. From a well-formed state whose
    written keys have distinct normal forms, every sequence of calls leads to
    such a state again: the written keys stay distinct and not blank, no two
    of them differ only by case or by white space around them, and the alias
    tables are the rebuild of the cache. *)
Theorem reachable_states (st : state) (calls : list (string * option string)) :
  wf st → NoDup (_norm_name <$> keys (_cache st)) →
  wf (runs st calls) ∧ NoDup (_norm_name <$> keys (_cache (runs st calls))).
Proof.
  revert st. induction calls as [|[q f] calls IH]; intros st Hwf Hnd; [done|].
  cbn [run_calls fold_left fst snd].
  change (fold_left _ calls ?s) with (runs s calls).
  apply IH; [by apply forward_wf | by apply norm_keys_step].
Qed.

Lemma forward_synced (st : state) (query : string) (fmt : option string) :
  synced st → synced (run st query fmt).2.
Proof.
  intros Hs.
  destruct (forward_step_cases st query fmt) as [->|[Hq Hmiss]]; [done|].
  by rewrite forward_miss_state.
Qed.

(** X11. The cache file follows the cache. Once the file holds the dump of
    the cache in memory, it does so after every sequence of calls; and a call
    that misses the cache leaves the file with the dump of the new cache,
    whatever the file held before. *)
Theorem file_tracks_cache
    (st : state) (calls : list (string * option string))
    (query : string) (fmt : option string) :
  (synced st → synced (runs st calls))
  ∧ (strip query ≠ "" → _lookup_cache st query = None →
     synced (run st query fmt).2).
Proof.
  split.
  - revert st. induction calls as [|[q f] calls IH]; intros st Hs; [done|].
    cbn [run_calls fold_left fst snd].
    change (fold_left _ calls ?s) with (runs s calls).
    apply IH. by apply forward_synced.
  - intros Hq Hmiss. by rewrite forward_miss_state.
Qed.

End Runs.

Lemma adapter_called_at_most_once_witness :
  (fetch_count "water"
     (trace (run_calls water_service fresh
               [("water", None); (" WATER ", Some "cid"); ("water", Some "json")]))
   ≤ 1)%nat.
Proof.
  assert (wf fresh) as Hwf by (apply (bool_decide_unpack _); vm_compute; exact I).
  exact (proj1 (adapter_called_at_most_once water_service fresh
                  [("water", None); (" WATER ", Some "cid"); ("water", Some "json")]
                  "water" Hwf)).
Defined.

Lemma reachable_states_witness :
  wf (run_calls water_service fresh [("water", None); ("ice", Some "cid")])
  ∧ NoDup (_norm_name <$>
             keys (_cache (run_calls water_service fresh
                             [("water", None); ("ice", Some "cid")]))).
Proof.
  apply reachable_states.
  - apply (bool_decide_unpack _). vm_compute. exact I.
  - apply NoDup_nil_2.
Defined.

Lemma file_tracks_cache_witness :
  synced (run_calls water_service fresh [("water", None); ("ice", Some "cid")]).
Proof.
  apply (proj1 (file_tracks_cache water_service fresh
                  [("water", None); ("ice", Some "cid")] "water" None)).
  reflexivity.
Defined.

(** ** Construction from the cache file *)

Lemma lookup_cache_ext (a b : state) (query : string) :
  _cache a = _cache b → _alias_cs a = _alias_cs b → _alias_ci a = _alias_ci b →
  _lookup_cache a query = _lookup_cache b query.
Proof.
  intros Hc Hcs Hci. unfold _lookup_cache, via_alias. by rewrite Hc, Hcs, Hci.
Qed.

Lemma init_unreadable (json_load : string → option store) (text : string) :
  json_load text = None →
  __init__ json_load (Some text)
  = {| _cache := []; _alias_cs := ∅; _alias_ci := ∅;
       cache_file := Some text; trace := [] |}.
Proof. intros H. unfold __init__, _load_cache. cbn. by rewrite H. Qed.

(** X12. Starting without a usable cache file. When the file does not
    exist, or [json.load] cannot decode it, the instance starts with an empty
    cache in a well-formed state, every query misses, and no exception is
    raised. A missing file is created with the text of the empty dict; an
    undecodable file is left as it is, with no write, until the first call
    that misses replaces its content by the dump of the one new entry. *)
Theorem start_without_usable_file
    (get_compounds : string → namespace → pcp_reply)
    (json_load : string → option store)
    (file : option string) (query : string) (fmt : option string) :
  file = None ∨ (∃ text, file = Some text ∧ json_load text = None) →
  let st := __init__ json_load file in
  _cache st = []
  ∧ wf st
  ∧ (∀ q0, _lookup_cache st q0 = None)
  ∧ (file = None → cache_file st = Some "{}" ∧ trace st = [EvWrite "{}"])
  ∧ (∀ text, file = Some text → cache_file st = Some text ∧ trace st = [])
  ∧ (strip query ≠ "" →
     cache_file (forward get_compounds st query fmt).2
     = Some (json_dump_store [(query, upserted get_compounds query)])).
Proof.
  intros Hfile. cbv zeta.
  assert (∀ st : state, _cache st = [] → _alias_cs st = ∅ → _alias_ci st = ∅ →
            wf st ∧ ∀ q0, _lookup_cache st q0 = None) as Hempty.
  { intros st Hc Hcs Hci. split.
    - unfold wf. rewrite Hc, Hcs, Hci. split_and!; [apply NoDup_nil_2 | apply Forall_nil_2 | done].
    - intros q0. unfold _lookup_cache, via_alias. case_decide; [done|].
      by rewrite Hc, Hcs, Hci, !lookup_empty. }
  assert (∀ st : state, _cache st = [] → _alias_cs st = ∅ → _alias_ci st = ∅ →
            strip query ≠ "" →
            cache_file (forward get_compounds st query fmt).2
            = Some (json_dump_store [(query, upserted get_compounds query)])) as Hfirst.
  { intros st Hc Hcs Hci Hq. destruct (Hempty st Hc Hcs Hci) as [_ Hmiss].
    rewrite forward_miss_state by done. cbn. by rewrite Hc. }
  destruct Hfile as [->|(text & -> & Hbad)].
  - rewrite init_absent. destruct (Hempty fresh) as [Hwf Hmiss]; try done.
    split_and!; try done. by apply Hfirst.
  - rewrite init_unreadable by done.
    destruct (Hempty {| _cache := []; _alias_cs := ∅; _alias_ci := ∅;
                        cache_file := Some text; trace := [] |}) as [Hwf Hmiss]; try done.
    split_and!; try done; try (by intros text' [= <-]). by apply Hfirst.
Qed.

Lemma start_without_usable_file_witness :
  cache_file (__init__ no_json (Some "not json")) = Some "not json"
  ∧ cache_file (forward no_results (__init__ no_json (Some "not json"))
                  "unobtainium999" None).2
    = Some (json_dump_store [("unobtainium999", negative_record)]).
Proof.
  destruct (start_without_usable_file no_results no_json (Some "not json")
              "unobtainium999" None) as (_ & _ & _ & _ & Hkept & Hfirst).
  { right. exists "not json". split; reflexivity. }
  split.
  - apply (Hkept "not json"). reflexivity.
  - apply Hfirst. vm_compute. discriminate.
Defined.

(** X13. Persisting and loading again. Let the file hold the dump of the
    cache of a well-formed state, and let [json.load] decode that dump to the
    cache. Then an instance constructed from the file has the same cache and
    the same two alias tables, answers every cache lookup as the first one
    did, and writes nothing. *)
Theorem reload_round_trip (json_load : string → option store) (st : state) :
  wf st → synced st → json_load (json_dump_store (_cache st)) = Some (_cache st) →
  let st' := __init__ json_load (cache_file st) in
  _cache st' = _cache st
  ∧ _alias_cs st' = _alias_cs st
  ∧ _alias_ci st' = _alias_ci st
  ∧ cache_file st' = cache_file st
  ∧ trace st' = []
  ∧ wf st'
  ∧ (∀ q, _lookup_cache st' q = _lookup_cache st q).
Proof.
  intros Hwf Hs Hload. cbv zeta. unfold synced in Hs. rewrite Hs.
  unfold __init__, _load_cache. cbn. rewrite Hload.
  pose proof Hwf as (Hnd & Hk & Heq).
  assert ((rebuild_loop (_cache st) ∅ ∅).1 = _alias_cs st) as Hcs by by rewrite <- Heq.
  assert ((rebuild_loop (_cache st) ∅ ∅).2 = _alias_ci st) as Hci by by rewrite <- Heq.
  split_and!; try done.
  - unfold wf. cbn. split_and!; [done|done|]. by destruct (rebuild_loop _ _ _).
  - intros q. by apply lookup_cache_ext.
Qed.

Lemma reload_round_trip_witness :
  _cache (__init__ (load_only (_cache with_water)) (cache_file with_water))
  = _cache with_water
  ∧ trace (__init__ (load_only (_cache with_water)) (cache_file with_water)) = [].
Proof.
  destruct (reload_round_trip (load_only (_cache with_water)) with_water)
    as (Hc & _ & _ & _ & Ht & _).
  - apply (bool_decide_unpack _). vm_compute. exact I.
  - reflexivity.
  - unfold load_only. apply decide_True. reflexivity.
  - split; [exact Hc | exact Ht].
Defined.

(** ** Queries that are served from the cache *)

Section Served.

Variable get_compounds : string → namespace → pcp_reply.

#[local] Abbreviation run := (forward get_compounds).

Lemma hit_is_served (st : state) (query : string) (fmt : option string) :
  is_Some (_lookup_cache st query) → (run st query fmt).2 = st.
Proof.
  intros [rec Hrec]. by rewrite (forward_hit get_compounds st query fmt rec Hrec).
Qed.

(** X14. Every alias that either table holds is itself a query that the
    cache answers: in a well-formed state, [forward] called with a key of
    the case-sensitive table, or with a key of the case-insensitive table (a
    name in its normal form), finds a record, calls no adapter and changes
    nothing. *)
Theorem stored_aliases_resolve (st : state) (k : string) (fmt : option string) :
  wf st → is_Some (_alias_cs st !! k) ∨ is_Some (_alias_ci st !! k) →
  is_Some (_lookup_cache st k) ∧ (run st k fmt).2 = st.
Proof.
  intros Hwf Hk.
  assert (is_Some (_lookup_cache st k)) as Hhit; [|split; [done | by apply hit_is_served]].
  destruct Hk as [[w Hw]|[w Hw]].
  - pose proof Hw as Hw'. rewrite (wf_cs st Hwf) in Hw'.
    apply last_claim_Some in Hw' as (v & Hin & Hclaim).
    destruct (structure_alias_stripped v k Hclaim) as [Hne Hs].
    rewrite lookup_cache_nonblank by (done || by rewrite Hs).
    unfold lookup_spec. rewrite Hs, Hw.
    destruct (wf_alias_target st Hwf k w) as (_ & r & Hr); [by left | by eexists].
  - pose proof Hw as Hw'. rewrite (wf_ci st Hwf) in Hw'.
    apply last_claim_Some in Hw' as (v & Hin & Hclaim).
    pose proof Hclaim as Hne.
    apply ci_claims_nonempty in Hne; [|by eapply wf_key_nonblank, entry_key].
    assert (strip k = k ∧ lower k = k) as [Hs Hl].
    { unfold ci_claims in Hclaim.
      apply list_elem_of_fmap in Hclaim as (a & -> & _).
      destruct (norm_name_fixed a) as [Hn Hs]. split; [done|].
      unfold _norm_name in *. by rewrite Hs in Hn. }
    rewrite lookup_cache_nonblank by (done || by rewrite Hs).
    unfold lookup_spec. rewrite Hs, Hl, Hw.
    destruct (_alias_cs st !! k) as [w'|] eqn:Ecs.
    + destruct (wf_alias_target st Hwf k w') as (_ & r & Hr); [by left | by eexists].
    + destruct (wf_alias_target st Hwf k w) as (_ & r & Hr); [by right | by eexists].
Qed.

(** X15. A query that differs from a written key of the cache only by the
    case of its letters or by white space around it is served from the
    cache: the lookup finds a record, the adapter is not called and nothing
    changes. *)
Theorem key_variants_are_served
    (st : state) (written query : string) (fmt : option string) :
  wf st → written ∈ keys (_cache st) → _norm_name query = _norm_name written →
  is_Some (_lookup_cache st query) ∧ (run st query fmt).2 = st.
Proof.
  intros Hwf [v Hin]%key_entry Hnorm.
  assert (is_Some (_lookup_cache st query)) as Hhit; [|split; [done | by apply hit_is_served]].
  pose proof (wf_key_nonblank st Hwf written (entry_key _ _ _ Hin)) as Hw.
  assert (_norm_name query ∈ ci_claims written v) as Hclaim.
  { rewrite Hnorm. apply ci_claims_written. by apply strip_nonempty. }
  pose proof (claimed_query_nonblank st written query v Hwf Hin Hclaim) as Hq.
  rewrite lookup_cache_nonblank by done. unfold lookup_spec.
  destruct (_alias_cs st !! strip query) as [w'|] eqn:Ecs.
  { destruct (wf_alias_target st Hwf (strip query) w') as (_ & r & Hr); [by left | by eexists]. }
  change (lower (strip query)) with (_norm_name query).
  destruct (last_claim_is_Some ci_claims (_cache st) (_norm_name query) written v Hin Hclaim)
    as [w Hlast].
  rewrite (wf_ci st Hwf), Hlast.
  destruct (wf_alias_target st Hwf (_norm_name query) w) as (_ & r & Hr); [|by eexists].
  right. by rewrite (wf_ci st Hwf).
Qed.

(** X16. A compound fetched with a CID that is not zero is stored with the
    number, indexed under its decimal string and returned as that string:
    after the call that fetched it, [forward(str(cid), "cid")] returns
    [str(cid)] from the cache, with no adapter call and no change. *)
Theorem fetched_cid_is_served
    (st : state) (query : string) (fmt : option string) (c : Compound) (z : Z) :
  wf st → strip query ≠ "" → _lookup_cache st query = None →
  try_namespaces get_compounds query namespaces = Some (record_of_compound c) →
  c_cid c = Some z → z ≠ 0 →
  let st' := (run st query fmt).2 in
  run st' (pretty z) (Some "cid") = (Return (pretty z), st').
Proof.
  intros Hwf Hq Hmiss Hfound Hcid Hz. cbv zeta.
  destruct (miss_step get_compounds st query fmt Hwf Hq Hmiss) as (Hwf' & Hc & _).
  unfold upserted in Hc. rewrite Hfound in Hc.
  destruct (pretty_Z_plain z) as [Hne Hns].
  assert (cid (record_of_compound c) = PInt z) as Hrec.
  { cbn. rewrite Hcid. by rewrite decide_False. }
  assert (pretty z ∈ structure_aliases (record_of_compound c)) as Halias.
  { unfold structure_aliases. apply truthy_elem. split; [done|].
    rewrite Hrec. cbn [cid_str py_str]. rewrite (no_space_strip (pretty z)) by done.
    do 3 apply list_elem_of_further. apply list_elem_of_here. }
  pose proof (lookup_claimed_cs st _ query (record_of_compound c) Hwf Hwf' Hc
                (pretty z) Halias) as Hhit.
  rewrite (forward_hit get_compounds _ (pretty z) (Some "cid") _ Hhit).
  f_equal. unfold render. cbn [text_or]. rewrite decide_False by done.
  rewrite decide_False by done.
  change (field_of_name "cid") with (Some Fcid). cbn [rec_get]. by rewrite Hrec.
Qed.

End Served.

Lemma stored_aliases_resolve_witness :
  is_Some (_lookup_cache with_water "oxidane")
  ∧ (forward no_results with_water "oxidane" None).2 = with_water.
Proof.
  apply stored_aliases_resolve.
  - apply (bool_decide_unpack _). vm_compute. exact I.
  - right. vm_compute. by eexists.
Defined.

Lemma key_variants_are_served_witness :
  is_Some (_lookup_cache with_aspirin "  aSPIRIN ")
  ∧ (forward no_results with_aspirin "  aSPIRIN " (Some "formula")).2 = with_aspirin.
Proof.
  apply (key_variants_are_served no_results with_aspirin "Aspirin").
  - apply (bool_decide_unpack _). vm_compute. exact I.
  - apply (bool_decide_unpack _). vm_compute. exact I.
  - vm_compute. reflexivity.
Defined.

Lemma fetched_cid_is_served_witness :
  forward water_service with_water "962" (Some "cid") = (Return "962", with_water).
Proof.
  apply (fetched_cid_is_served water_service fresh "water" (Some "smiles") water 962).
  - apply (bool_decide_unpack _). vm_compute. exact I.
  - vm_compute. discriminate.
  - vm_compute. reflexivity.
  - vm_compute. reflexivity.
  - reflexivity.
  - discriminate.
Defined.
